(** * DMN to JSON example generator: the type-resolution and example-synthesis
    engine of [src/App.jsx]

    The engine is the part of [App] that works on the tree returned by the XML
    parser: [findItemDefinition] (lines 89-99), [generateExampleValue]
    (lines 102-137) and the body of the [reader.onload] handler inside
    [handleFileUpload] (lines 49-73).

    The decoded tree is modelled by records that have one optional field per
    property the code reads ([None] is JavaScript's [undefined]).  Attribute
    values and element texts are strings.  JavaScript objects built by the
    code are association lists in insertion order with assignment semantics
    (an existing key is overwritten in place, a new key is appended); the
    special enumeration order of integer-like keys is not modelled, the
    result is read as a mapping, and neither is the property name __proto__,
    which assignment treats specially.  Strings are byte strings, so
    [toLowerCase] is the ASCII one.  Recursion that the source does not
    bound is modelled with fuel: [OutOfFuel] for every amount of fuel is
    divergence (in a browser: a call stack overflow). *)

From Stdlib Require Import List String Ascii ZArith Bool Lia PeanoNat.
Import ListNotations.
Open Scope string_scope.

Set Warnings "-register-all".

(** ** JavaScript values and operators used by the engine *)

Module Js.

(** [x ? _ : _], [!x], [x && _] on a string-or-undefined: undefined and the
    empty string are falsy. *)
Definition truthy (x : option string) : bool :=
  match x with
  | Some s => negb (s =? "")
  | None => false
  end.

(** [a === b] on strings-or-undefined. *)
Definition strict_eq (a b : option string) : bool :=
  match a, b with
  | Some x, Some y => x =? y
  | None, None => true
  | _, _ => false
  end.

(** [a || b]. *)
Definition or (a b : option string) : option string :=
  if truthy a then a else b.

(** [a || d] where [d] is a string. *)
Definition or_string (a : option string) (d : string) : string :=
  match a with
  | Some s => if s =? "" then d else s
  | None => d
  end.

(** [a ?? d]. *)
Definition nullish (a : option string) (d : string) : string :=
  match a with
  | Some s => s
  | None => d
  end.

(** [a || []] on an array-or-undefined (arrays are always truthy). *)
Definition or_empty {A} (a : option (list A)) : list A :=
  match a with
  | Some l => l
  | None => []
  end.

(** A property key computed from a string-or-undefined: [obj[undefined]]
    is the property named "undefined". *)
Definition key (x : option string) : string := nullish x "undefined".

Definition lower_ascii (c : ascii) : ascii :=
  let n := nat_of_ascii c in
  if (65 <=? n)%nat && (n <=? 90)%nat then ascii_of_nat (n + 32) else c.

(** [s.toLowerCase()]. *)
Fixpoint toLowerCase (s : string) : string :=
  match s with
  | EmptyString => EmptyString
  | String c r => String (lower_ascii c) (toLowerCase r)
  end.

(** The values the engine produces. *)
Inductive value : Type :=
| VNull
| VNum (n : Z)
| VBool (b : bool)
| VStr (s : string)
| VObj (props : list (string * value)).

(** [obj[k] = v]. *)
Fixpoint set {A} (obj : list (string * A)) (k : string) (v : A)
  : list (string * A) :=
  match obj with
  | [] => [(k, v)]
  | (k', v') :: rest =>
      if k' =? k then (k, v) :: rest else (k', v') :: set rest k v
  end.

(** [obj[k]]. *)
Fixpoint get {A} (obj : list (string * A)) (k : string) : option A :=
  match obj with
  | [] => None
  | (k', v) :: rest => if k' =? k then Some v else get rest k
  end.

(** [Object.fromEntries(entries)]. *)
Definition fromEntries {A} (entries : list (string * A)) : list (string * A) :=
  fold_left (fun acc kv => set acc (fst kv) (snd kv)) entries [].

Definition keys {A} (obj : list (string * A)) : list string := map fst obj.

End Js.

Import Js.

(** ** Outcomes: a value, a thrown exception, or not enough fuel *)

Inductive error : Type :=
| TypeError (message : string)
| Error (message : string).

Definition message (e : error) : string :=
  match e with
  | TypeError m => m
  | Error m => m
  end.

Inductive result (A : Type) : Type :=
| Ok (a : A)
| Throw (e : error)
| OutOfFuel.

Arguments Ok {A} a.
Arguments Throw {A} e.
Arguments OutOfFuel {A}.

Definition bind {A B} (m : result A) (k : A -> result B) : result B :=
  match m with
  | Ok a => k a
  | Throw e => Throw e
  | OutOfFuel => OutOfFuel
  end.

Notation "x <- m ;; k" := (bind m (fun x => k))
  (at level 61, m at next level, right associativity).

(** [arr.map(f)] for an [f] that may throw. *)
Fixpoint mapM {A B} (f : A -> result B) (l : list A) : result (list B) :=
  match l with
  | [] => Ok []
  | a :: rest => b <- f a ;; bs <- mapM f rest ;; Ok (b :: bs)
  end.

(** [arr.reduce(f, init)] for an [f] that may throw. *)
Fixpoint reduceM {A B} (f : B -> A -> result B) (l : list A) (init : B)
  : result B :=
  match l with
  | [] => Ok init
  | a :: rest => acc <- f init a ;; reduceM f rest acc
  end.

(** A computation diverges when no amount of fuel lets it finish. *)
Definition diverges {A} (run : nat -> result A) : Prop :=
  forall fuel, run fuel = OutOfFuel.

(** [r1] is [OutOfFuel] or it is [r2]. *)
Definition refines {A} (r1 r2 : result A) : Prop :=
  r1 = OutOfFuel \/ r1 = r2.

(** ** The decoded document *)

(** A [dmn:itemComponent] element: [_name] and the [dmn:typeRef] child. *)
Record itemComponent : Type := {
  ic_name : option string;
  ic_typeRef : option string
}.

(** What the parser can leave under [dmn:allowedValues]: a string (an
    element holding text only), an object (one element with attributes or
    children; [_text] is its own text), or an array (the element repeated). *)
Inductive allowedValues : Type :=
| AvString (s : string)
| AvObject (_text : option string)
| AvArray (items : list allowedValues).

(** A [dmn:itemDefinition] element: [_name], the [dmn:itemComponent]
    children, [dmn:allowedValues], the [_typeRef] attribute and the
    [dmn:typeRef] child. *)
Record itemDefinition : Type := {
  def_name : option string;
  def_itemComponent : option (list itemComponent);
  def_allowedValues : option allowedValues;
  def_typeRef_attr : option string;
  def_typeRef_elem : option string
}.

(** [dmn:variable]: the [_typeRef] attribute. *)
Record variable : Type := { var_typeRef : option string }.

(** A [dmn:inputData] element: [_name], [_id] and [dmn:variable]. *)
Record inputData : Type := {
  in_name : option string;
  in_id : option string;
  in_variable : option variable
}.

(** [dmn:definitions]. *)
Record definitions : Type := {
  dmn_inputData : option (list inputData);
  dmn_itemDefinition : option (list itemDefinition)
}.

(** The parser's result. *)
Record document : Type := { dmn_definitions : option definitions }.

(** The objects [findItemDefinition] builds: [{ name, typeRef, components }],
    where [components] is an array or [null]. *)
Inductive component : Type :=
| Component (name : option string) (typeRef : option string)
            (components : option (list component)).

Definition c_name (c : component) : option string :=
  let 'Component n _ _ := c in n.
Definition c_typeRef (c : component) : option string :=
  let 'Component _ t _ := c in t.
Definition c_components (c : component) : option (list component) :=
  let 'Component _ _ cs := c in cs.

(** The entries of [inputDataMap]. *)
Record inputEntry : Type := {
  e_typeRef : option string;
  e_components : option (list component);
  e_namespace : option string
}.

(** ** [findItemDefinition] (lines 89-99) *)

(** [itemDefinitions.find(d => d._name === typeRef)]. *)
Definition find_def (itemDefinitions : list itemDefinition)
  (typeRef : option string) : option itemDefinition :=
  find (fun d => strict_eq (def_name d) typeRef) itemDefinitions.

Definition undefined_find : error :=
  TypeError "Cannot read properties of undefined (reading 'find')".

Fixpoint findItemDefinition (fuel : nat)
  (itemDefinitions : option (list itemDefinition)) (typeRef : option string)
  : result (option (list component)) :=
  match fuel with
  | O => OutOfFuel
  | S fuel' =>
      match itemDefinitions with
      | None => Throw undefined_find
      | Some defs =>
          match find_def defs typeRef with
          | None => Ok None
          | Some definition =>
              cs <- mapM (fun component =>
                      sub <- (if truthy (ic_typeRef component)
                              then findItemDefinition fuel' itemDefinitions
                                     (ic_typeRef component)
                              else Ok None) ;;
                      Ok (Component (ic_name component)
                                    (ic_typeRef component) sub))
                    (or_empty (def_itemComponent definition)) ;;
              Ok (Some cs)
          end
      end
  end.

(** ** The allowed-values pattern (line 111) *)

Module Pattern.

Definition dquote : ascii := ascii_of_nat 34.

Definition is_dquote (c : ascii) : bool := Ascii.eqb c dquote.

(** The longest prefix without a double quote, and what follows it:
    what the greedy character class of the pattern consumes. *)
Fixpoint span_unquoted (s : list ascii) : list ascii * list ascii :=
  match s with
  | [] => ([], [])
  | c :: rest =>
      if is_dquote c then ([], s)
      else let (run, after) := span_unquoted rest in (c :: run, after)
  end.

(** One attempt of the pattern at the start of [s]: a double quote, at
    least one character that is not a double quote, a double quote.
    Returns the matched text and the rest of the subject. *)
Definition match_at (s : list ascii) : option (list ascii * list ascii) :=
  match s with
  | c :: rest =>
      if is_dquote c then
        match span_unquoted rest with
        | ((_ :: _) as run, q :: after) =>
            Some (dquote :: run ++ [q], after)
        | _ => None
        end
      else None
  | [] => None
  end.

(** The global scan: where an attempt succeeds the scan goes on after the
    match, where it fails it moves one character on. *)
Fixpoint scan (fuel : nat) (s : list ascii) : list (list ascii) :=
  match fuel with
  | O => []
  | S fuel' =>
      match s with
      | [] => []
      | _ :: rest =>
          match match_at s with
          | Some (m, after) => m :: scan fuel' after
          | None => scan fuel' rest
          end
      end
  end.

(** [text.match(pattern)] with the global flag: every match, in order
    (the empty list for [null]). *)
Definition matchAll (text : string) : list string :=
  let s := list_ascii_of_string text in
  map string_of_list_ascii (scan (List.length s) s).

(** The first [replace] of line 111: a leading double quote is removed. *)
Definition strip_leading (v : string) : string :=
  match v with
  | String c rest => if is_dquote c then rest else v
  | EmptyString => v
  end.

(** The second [replace] of line 111: a trailing double quote is removed. *)
Fixpoint strip_trailing (v : string) : string :=
  match v with
  | EmptyString => EmptyString
  | String c EmptyString => if is_dquote c then EmptyString else v
  | String c rest => String c (strip_trailing rest)
  end.

Definition strip (v : string) : string := strip_trailing (strip_leading v).

(** [s] between double quotes. *)
Definition quoted (s : string) : string :=
  String dquote (s ++ String dquote EmptyString).

(** A literal: at least one character, none of them a double quote. *)
Definition literal_chars (lit : list ascii) : Prop :=
  lit <> [] /\ ~ In dquote lit.

(** [lit] stands between double quotes in [s], after the prefix [a]. *)
Definition occurs_chars (s a lit b : list ascii) : Prop :=
  s = (a ++ dquote :: lit ++ dquote :: b)%list /\ literal_chars lit.

(** The same notions on strings. *)
Definition literal (lit : string) : Prop :=
  lit <> "" /\ ~ In dquote (list_ascii_of_string lit).

Definition occurs (text before lit after : string) : Prop :=
  text = before ++ quoted lit ++ after /\ literal lit.

(** The occurrence of [lit] after [before] is the leftmost one of [text]. *)
Definition leftmost (text before lit after : string) : Prop :=
  occurs text before lit after
  /\ forall before' lit' after',
       occurs text before' lit' after' ->
       String.length before <= String.length before'.

End Pattern.

(** ** [generateExampleValue] (lines 102-137) *)

(** [def['dmn:itemComponent']?.length > 0]; its negation is
    [!def['dmn:itemComponent']?.length]. *)
Definition has_items (def : itemDefinition) : bool :=
  match def_itemComponent def with
  | Some (_ :: _) => true
  | _ => false
  end.

(** Truthiness of [def['dmn:allowedValues']]. *)
Definition av_truthy (av : option allowedValues) : bool :=
  match av with
  | None => false
  | Some (AvString s) => negb (s =? "")
  | Some _ => true
  end.

(** [av?.[0]]. *)
Definition av_first (av : allowedValues) : option allowedValues :=
  match av with
  | AvString (String c _) => Some (AvString (String c EmptyString))
  | AvString EmptyString => None
  | AvObject _ => None
  | AvArray items => hd_error items
  end.

(** [x?._text]. *)
Definition av_text (x : option allowedValues) : option string :=
  match x with
  | Some (AvObject t) => t
  | _ => None
  end.

(** Line 111: [def['dmn:allowedValues']?.[0]?._text?.match(...)?.map(...)],
    then [allowedValues?.[0]]. *)
Definition first_allowed_value (def : itemDefinition) : option string :=
  match def_allowedValues def with
  | None => None
  | Some av =>
      match av_text (av_first av) with
      | None => None
      | Some text => hd_error (map Pattern.strip (Pattern.matchAll text))
      end
  end.

(** The base type of a definition as line 123 reads it. *)
Definition base_type (def : itemDefinition) : string :=
  nullish (Js.or (def_typeRef_elem def) (def_typeRef_attr def)) "string".

(** [type === 'number' ? 0 : type === 'boolean' ? true :
     'example_' + type.toLowerCase()] (lines 124-126 and 131-133). *)
Definition example_of_type (type : string) : value :=
  if type =? "number" then VNum 0
  else if type =? "boolean" then VBool true
  else VStr ("example_" ++ toLowerCase type).

Fixpoint generateExampleValue (fuel : nat)
  (components : option (list component))
  (itemDefinitions : option (list itemDefinition)) : result value :=
  match fuel with
  | O => OutOfFuel
  | S fuel' =>
      let itemDefinitions := or_empty itemDefinitions in
      match components with
      | None => Ok VNull
      | Some components =>
          acc <- reduceM (fun acc component =>
            let def :=
              if truthy (c_typeRef component)
              then find_def itemDefinitions (c_typeRef component)
              else None in
            match def with
            | Some def =>
                if negb (has_items def) && av_truthy (def_allowedValues def)
                then
                  let v :=
                    or_string (first_allowed_value def)
                      (toLowerCase (nullish (def_typeRef_attr def) "string")) in
                  Ok (set acc (key (c_name component)) (VStr v))
                else if has_items def then
                  nested <- reduceM (fun nestedAcc comp =>
                    sub <- (if truthy (ic_typeRef comp)
                            then findItemDefinition fuel'
                                   (Some itemDefinitions) (ic_typeRef comp)
                            else Ok None) ;;
                    v <- generateExampleValue fuel'
                           (Some [Component (ic_name comp) (ic_typeRef comp)
                                    sub])
                           (Some itemDefinitions) ;;
                    Ok (set nestedAcc (key (ic_name comp)) v))
                    (or_empty (def_itemComponent def)) [] ;;
                  Ok (set acc (key (c_name component)) (VObj nested))
                else
                  let type := base_type def in
                  Ok (set acc (key (c_name component)) (example_of_type type))
            | None =>
                if truthy (c_typeRef component) then
                  v <- generateExampleValue fuel' (c_components component)
                         (Some itemDefinitions) ;;
                  Ok (set acc (key (c_name component)) v)
                else
                  Ok (set acc (key (c_name component))
                        (example_of_type
                           (nullish (c_typeRef component) "string")))
            end) components [] ;;
          Ok (VObj acc)
      end
  end.

(** ** The [reader.onload] handler of [handleFileUpload] (lines 36-84) *)

Definition undefined_typeRef : error :=
  TypeError "Cannot read properties of undefined (reading '_typeRef')".

(** Lines 57-65: the [reduce] that builds [inputDataMap]. *)
Definition inputDataMap (fuel : nat) (defs : definitions)
  : result (list (string * inputEntry)) :=
  reduceM (fun acc input =>
    match in_variable input with
    | None => Throw undefined_typeRef
    | Some v =>
        let typeRef := var_typeRef v in
        components <- findItemDefinition fuel (dmn_itemDefinition defs)
                        typeRef ;;
        Ok (set acc (key (in_name input))
              {| e_typeRef := typeRef;
                 e_components := components;
                 e_namespace := in_id input |})
    end) (or_empty (dmn_inputData defs)) [].

(** Lines 49-73: from the parsed document to [schema]. *)
Definition handleFileUpload (fuel : nat) (parsed : document) : result value :=
  match dmn_definitions parsed with
  | None => Throw (Error "Invalid DMN file structure")
  | Some defs =>
      m <- inputDataMap fuel defs ;;
      entries <- mapM (fun kd =>
                   v <- generateExampleValue fuel (e_components (snd kd))
                          (dmn_itemDefinition defs) ;;
                   Ok (fst kd, v)) m ;;
      Ok (VObj (fromEntries entries))
  end.

(** The component state: [jsonSchema], [modalOpen], [validationErrors]. *)
Record AppState : Type := {
  jsonSchema : option value;
  modalOpen : bool;
  validationErrors : list (string * string)
}.

(** Lines 75-83: the state after the handler ran on [parsed] in state [st]. *)
Definition onload (fuel : nat) (st : AppState) (parsed : document)
  : result AppState :=
  match handleFileUpload fuel parsed with
  | Ok schema =>
      Ok {| jsonSchema := Some schema;
            modalOpen := true;
            validationErrors := [] |}
  | Throw e =>
      Ok {| jsonSchema := jsonSchema st;
            modalOpen := modalOpen st;
            validationErrors := [("Processing error", message e)] |}
  | OutOfFuel => OutOfFuel
  end.

(** ** Acyclic catalogs *)

(** [rank] decreases from a definition to every definition its components
    refer to. *)
Definition acyclic (catalog : list itemDefinition)
  (rank : option string -> nat) : Prop :=
  forall t d c,
    find_def catalog t = Some d ->
    In c (or_empty (def_itemComponent d)) ->
    truthy (ic_typeRef c) = true ->
    rank (ic_typeRef c) < rank t.

(** A component object is settled when a typeRef that the catalog does not
    know comes with no components (what [findItemDefinition] builds). *)
Definition settled (catalog : list itemDefinition) (c : component) : Prop :=
  truthy (c_typeRef c) = true ->
  find_def catalog (c_typeRef c) = None ->
  c_components c = None.

(** ** Example documents *)

Module Examples.

(** [<dmn:itemComponent name=n><dmn:typeRef>t</dmn:typeRef>]. *)
Definition field (n : string) (t : option string) : itemComponent :=
  {| ic_name := Some n; ic_typeRef := t |}.

(** A composite definition: only [dmn:itemComponent] children. *)
Definition composite (n : string) (fields : list itemComponent)
  : itemDefinition :=
  {| def_name := Some n;
     def_itemComponent := Some fields;
     def_allowedValues := None;
     def_typeRef_attr := None;
     def_typeRef_elem := None |}.

(** A definition without components: a [dmn:typeRef] child and possibly
    [dmn:allowedValues]. *)
Definition primitive (n : string) (base : option string)
  (av : option allowedValues) : itemDefinition :=
  {| def_name := Some n;
     def_itemComponent := None;
     def_allowedValues := av;
     def_typeRef_attr := None;
     def_typeRef_elem := base |}.

Definition input (n : string) (t : option string) : inputData :=
  {| in_name := Some n;
     in_id := None;
     in_variable := Some {| var_typeRef := t |} |}.

Definition doc (inputs : option (list inputData))
  (catalog : option (list itemDefinition)) : document :=
  {| dmn_definitions :=
       Some {| dmn_inputData := inputs; dmn_itemDefinition := catalog |} |}.

(** Applicant : Person, Person = { name; age : Number }, Number = number. *)
Definition person : itemDefinition :=
  composite "Person" [field "name" None; field "age" (Some "Number")].
Definition number : itemDefinition :=
  primitive "Number" (Some "number") None.
Definition applicant_doc : document :=
  doc (Some [input "Applicant" (Some "Person")]) (Some [person; number]).

(** Applicant : Person, Person = { address : Address },
    Address = { city; zip : Number }. *)
Definition person_with_address : itemDefinition :=
  composite "Person" [field "address" (Some "Address")].
Definition address : itemDefinition :=
  composite "Address" [field "city" None; field "zip" (Some "Number")].
Definition nested_doc : document :=
  doc (Some [input "Applicant" (Some "Person")])
      (Some [person_with_address; address; number]).

(** Price : Currency and Order : Order, Order = { amount : Currency }, with
    no definition named Currency. *)
Definition order : itemDefinition :=
  composite "Order" [field "amount" (Some "Currency")].
Definition currency_doc : document :=
  doc (Some [input "Price" (Some "Currency"); input "Order" (Some "Order")])
      (Some [order]).

(** Node = { next : Node }. *)
Definition node : itemDefinition :=
  composite "Node" [field "next" (Some "Node")].
Definition node_doc : document :=
  doc (Some [input "Head" (Some "Node")]) (Some [node]).

(** Reading : Reading, Reading = { value : Amount }, Amount = NUMBER. *)
Definition reading : itemDefinition :=
  composite "Reading" [field "value" (Some "Amount")].
Definition amount : itemDefinition :=
  primitive "Amount" (Some "NUMBER") None.
Definition reading_doc : document :=
  doc (Some [input "Reading" (Some "Reading")]) (Some [reading; amount]).

(** Task = { status : Status }; Status carries allowed values. *)
Definition task : itemDefinition :=
  composite "Task" [field "status" (Some "Status")].
Definition status (text : string) : itemDefinition :=
  primitive "Status" None (Some (AvArray [AvObject (Some text)])).
Definition active_inactive : string :=
  Pattern.quoted "Active" ++ " " ++ Pattern.quoted "Inactive".

(** An input of a built-in type in a document without any
    [dmn:itemDefinition]. *)
Definition builtin_doc : document :=
  doc (Some [input "Age" (Some "number")]) None.

(** State : Status, where Status has no components. *)
Definition status_input_doc : document :=
  doc (Some [input "State" (Some "Status")])
      (Some [status active_inactive]).

Definition initial : AppState :=
  {| jsonSchema := None; modalOpen := false; validationErrors := [] |}.

End Examples.

(** ** The upload handler around the engine (lines 23-86) *)

(** The selected file: [file.name] and the text that [readAsText] hands to
    [reader.onload]. *)
Record file : Type := {
  file_name : string;
  file_text : string
}.

(** [s.endsWith(suffix)]: [suffix] is one of the tails of [s]. *)
Fixpoint endsWith (s suffix : string) : bool :=
  (s =? suffix)
  || match s with
     | EmptyString => false
     | String _ rest => endsWith rest suffix
     end.

(** The entry of lines 28-31. *)
Definition invalid_file_type : string * string :=
  ("Invalid file type", "Please upload a valid DMN file with .dmn extension").

(** The state after an entry [e] replaced the validation errors and nothing
    else changed ([setValidationErrors] alone was called). *)
Definition with_error (st : AppState) (e : string * string) : AppState :=
  {| jsonSchema := jsonSchema st;
     modalOpen := modalOpen st;
     validationErrors := [e] |}.

Section Upload.

(** [parser.parse(content)] of the external XML parser: the exception it
    throws, or the decoded tree. *)
Variable parse : string -> error + document.

(** Lines 36-84: [reader.onload] on the text of the file; the parser runs
    inside the [try]. *)
Definition reader_onload (fuel : nat) (st : AppState) (content : string)
  : result AppState :=
  match parse content with
  | inl e => Ok (with_error st ("Processing error", message e))
  | inr parsed => onload fuel st parsed
  end.

(** Lines 23-86: the change handler of the file input, on
    [event.target.files]. *)
Definition handleFileUpload_event (fuel : nat) (st : AppState)
  (files : list file) : result AppState :=
  match files with
  | [] => Ok st
  | f :: _ =>
      if negb (endsWith (file_name f) ".dmn")
      then Ok (with_error st invalid_file_type)
      else reader_onload fuel st (file_text f)
  end.

End Upload.

(** The text of the (first) dmn:allowedValues element of a definition,
    whichever way the parser decoded the element: a plain text, one object
    with its own text, or an array of these. *)
Definition allowed_values_text (av : allowedValues) : option string :=
  match av with
  | AvString s => Some s
  | AvObject t => t
  | AvArray (AvString s :: _) => Some s
  | AvArray (AvObject t :: _) => t
  | AvArray _ => None
  end.

(** A component object without its resolved sub-tree. *)
Definition bare (c : component) : component :=
  Component (c_name c) (c_typeRef c) None.

(** A set of type references is cyclic in a catalog when each of them
    resolves to a definition with a component whose typeRef is in the set
    again. *)
Definition cyclic (catalog : list itemDefinition)
  (P : option string -> Prop) : Prop :=
  forall t, P t ->
    exists d c,
      find_def catalog t = Some d
      /\ In c (or_empty (def_itemComponent d))
      /\ truthy (ic_typeRef c) = true
      /\ P (ic_typeRef c).

(** The value that one pass of the [reduce] of [generateExampleValue]
    assigns to [acc[component.name]] (the right-hand sides of lines 112,
    114-121, 124-126 and 129-133), with [fuel] for the calls it makes. *)
Definition field_example (fuel : nat) (catalog : list itemDefinition)
  (component : component) : result value :=
  let def :=
    if truthy (c_typeRef component)
    then find_def catalog (c_typeRef component)
    else None in
  match def with
  | Some def =>
      if negb (has_items def) && av_truthy (def_allowedValues def)
      then
        Ok (VStr (or_string (first_allowed_value def)
                    (toLowerCase (nullish (def_typeRef_attr def) "string"))))
      else if has_items def then
        nested <- reduceM (fun nestedAcc comp =>
          sub <- (if truthy (ic_typeRef comp)
                  then findItemDefinition fuel (Some catalog)
                         (ic_typeRef comp)
                  else Ok None) ;;
          v <- generateExampleValue fuel
                 (Some [Component (ic_name comp) (ic_typeRef comp) sub])
                 (Some catalog) ;;
          Ok (set nestedAcc (key (ic_name comp)) v))
          (or_empty (def_itemComponent def)) [] ;;
        Ok (VObj nested)
      else Ok (example_of_type (base_type def))
  | None =>
      if truthy (c_typeRef component) then
        generateExampleValue fuel (c_components component) (Some catalog)
      else Ok (example_of_type (nullish (c_typeRef component) "string"))
  end.

(** ** More example documents *)

Module MoreExamples.

(** Left = { right : Right }, Right = { left : Left }. *)
Definition left : itemDefinition :=
  Examples.composite "Left" [Examples.field "right" (Some "Right")].
Definition right : itemDefinition :=
  Examples.composite "Right" [Examples.field "left" (Some "Left")].
Definition mutual_doc : document :=
  Examples.doc (Some [Examples.input "Pair" (Some "Left")])
               (Some [left; right]).

(** Two inputs of one name, and an input between them. *)
Definition twice_doc : document :=
  Examples.doc
    (Some [Examples.input "Applicant" (Some "Number");
           Examples.input "Other" (Some "Currency");
           Examples.input "Applicant" (Some "Person")])
    (Some [Examples.person; Examples.number]).

(** An input without [dmn:variable] after a good one. *)
Definition no_variable_doc : document :=
  Examples.doc
    (Some [Examples.input "Applicant" (Some "Person");
           {| in_name := Some "Broken"; in_id := None;
              in_variable := None |}])
    (Some [Examples.person; Examples.number]).

(** A second definition named Person after the first. *)
Definition other_person : itemDefinition :=
  Examples.composite "Person" [Examples.field "nickname" None].

(** A parser that knows two texts. *)
Definition parse (content : string) : error + document :=
  if content =? "applicant" then inr Examples.applicant_doc
  else if content =? "empty" then inr {| dmn_definitions := None |}
  else inl (Error "Unexpected end of input").

Definition dmn_file : file :=
  {| file_name := "loan.dmn"; file_text := "applicant" |}.
Definition xml_file : file :=
  {| file_name := "loan.xml"; file_text := "applicant" |}.

(** Task = { status : Status }, where Status has one dmn:allowedValues
    element with an attribute and the text of the two quoted values: the
    parser decodes one such element as an object with its text. *)
Definition single_status : itemDefinition :=
  Examples.primitive "Status" None
    (Some (AvObject (Some Examples.active_inactive))).
Definition single_status_doc : document :=
  Examples.doc (Some [Examples.input "Task" (Some "Task")])
               (Some [Examples.task; single_status]).

End MoreExamples.

(** * Properties *)

(** ** Fuel: more fuel never changes an outcome that was reached *)

Lemma refines_refl {A} (r : result A) : refines r r.
Proof. now right. Qed.

Lemma refines_done {A} (r1 r2 : result A) :
  refines r1 r2 -> r1 <> OutOfFuel -> r2 = r1.
Proof. intros [H | H] Hne; [contradiction | now symmetry]. Qed.

Lemma refines_bind {A B} (m1 m2 : result A) (k1 k2 : A -> result B) :
  refines m1 m2 -> (forall a, refines (k1 a) (k2 a)) ->
  refines (bind m1 k1) (bind m2 k2).
Proof.
  intros [-> | ->] Hk; [now left |].
  destruct m2; simpl; auto using refines_refl.
Qed.

Lemma refines_mapM {A B} (f g : A -> result B) (l : list A) :
  (forall a, refines (f a) (g a)) -> refines (mapM f l) (mapM g l).
Proof.
  intros Hfg. induction l as [| a l IH]; simpl.
  - apply refines_refl.
  - apply refines_bind; [apply Hfg | intros b].
    apply refines_bind; [apply IH | intros bs; apply refines_refl].
Qed.

Lemma refines_reduceM {A B} (f g : B -> A -> result B) (l : list A) :
  (forall acc a, refines (f acc a) (g acc a)) ->
  forall init, refines (reduceM f l init) (reduceM g l init).
Proof.
  intros Hfg. induction l as [| a l IH]; intros init; simpl.
  - apply refines_refl.
  - apply refines_bind; [apply Hfg | apply IH].
Qed.

Lemma findItemDefinition_mono n m defs typeRef :
  n <= m ->
  refines (findItemDefinition n defs typeRef)
          (findItemDefinition m defs typeRef).
Proof.
  revert m typeRef. induction n as [| n IH]; intros m typeRef Hle.
  - now left.
  - destruct m as [| m]; [lia |]. simpl.
    destruct defs as [ds |]; [| apply refines_refl].
    destruct (find_def ds typeRef) as [d |]; [| apply refines_refl].
    apply refines_bind; [| intros; apply refines_refl].
    apply refines_mapM. intros c.
    apply refines_bind; [| intros; apply refines_refl].
    destruct (truthy (ic_typeRef c)); [apply IH; lia | apply refines_refl].
Qed.

Lemma generateExampleValue_mono n m components defs :
  n <= m ->
  refines (generateExampleValue n components defs)
          (generateExampleValue m components defs).
Proof.
  revert m components defs.
  induction n as [| n IH]; intros m components defs Hle.
  - now left.
  - destruct m as [| m]; [lia |]. simpl.
    destruct components as [cs |]; [| apply refines_refl].
    apply refines_bind; [| intros; apply refines_refl].
    apply refines_reduceM. intros acc c.
    destruct (if truthy (c_typeRef c)
              then find_def (or_empty defs) (c_typeRef c) else None)
      as [d |].
    + destruct (negb (has_items d) && av_truthy (def_allowedValues d));
        [apply refines_refl |].
      destruct (has_items d); [| apply refines_refl].
      apply refines_bind; [| intros; apply refines_refl].
      apply refines_reduceM. intros nestedAcc comp.
      apply refines_bind.
      * destruct (truthy (ic_typeRef comp)); [| apply refines_refl].
        apply findItemDefinition_mono; lia.
      * intros sub. apply refines_bind; [| intros; apply refines_refl].
        apply IH; lia.
    + destruct (truthy (c_typeRef c)); [| apply refines_refl].
      apply refines_bind; [| intros; apply refines_refl].
      apply IH; lia.
Qed.

Lemma inputDataMap_mono n m defs :
  n <= m -> refines (inputDataMap n defs) (inputDataMap m defs).
Proof.
  intros Hle. unfold inputDataMap. apply refines_reduceM. intros acc input.
  destruct (in_variable input) as [v |]; [| apply refines_refl].
  apply refines_bind; [| intros; apply refines_refl].
  now apply findItemDefinition_mono.
Qed.

Lemma handleFileUpload_mono n m parsed :
  n <= m -> refines (handleFileUpload n parsed) (handleFileUpload m parsed).
Proof.
  intros Hle. unfold handleFileUpload.
  destruct (dmn_definitions parsed) as [defs |]; [| apply refines_refl].
  apply refines_bind; [now apply inputDataMap_mono | intros im].
  apply refines_bind; [| intros; apply refines_refl].
  apply refines_mapM. intros kd.
  apply refines_bind; [| intros; apply refines_refl].
  now apply generateExampleValue_mono.
Qed.

Lemma onload_mono n m st parsed :
  n <= m -> refines (onload n st parsed) (onload m st parsed).
Proof.
  intros Hle. unfold onload.
  destruct (handleFileUpload_mono _ _ parsed Hle) as [-> | ->];
    [now left | apply refines_refl].
Qed.

(** Two finished runs of one computation agree, whatever fuel each had. *)
Lemma finished_runs_agree {A} (run : nat -> result A) :
  (forall n m, n <= m -> refines (run n) (run m)) ->
  forall n m, run n <> OutOfFuel -> run m <> OutOfFuel -> run n = run m.
Proof.
  intros Hmono n m Hn Hm.
  destruct (Nat.le_ge_cases n m) as [Hle | Hle].
  - symmetry. exact (refines_done _ _ (Hmono _ _ Hle) Hn).
  - exact (refines_done _ _ (Hmono _ _ Hle) Hm).
Qed.

(** ** Acyclic catalogs: resolution and synthesis finish *)

Lemma bind_Ok {A B} (m : result A) (k : A -> result B) (b : B) :
  bind m k = Ok b -> exists a, m = Ok a /\ k a = Ok b.
Proof. destruct m; simpl; intros H; try discriminate. eauto. Qed.



Lemma strict_eq_true a b : strict_eq a b = true -> a = b.
Proof.
  destruct a, b; simpl; try discriminate; [| reflexivity].
  intros H. apply String.eqb_eq in H. now subst.
Qed.

Lemma findItemDefinition_S fuel catalog typeRef :
  findItemDefinition (S fuel) (Some catalog) typeRef
  = match find_def catalog typeRef with
    | None => Ok None
    | Some definition =>
        cs <- mapM (fun component =>
                sub <- (if truthy (ic_typeRef component)
                        then findItemDefinition fuel (Some catalog)
                               (ic_typeRef component)
                        else Ok None) ;;
                Ok (Component (ic_name component)
                              (ic_typeRef component) sub))
              (or_empty (def_itemComponent definition)) ;;
        Ok (Some cs)
    end.
Proof. reflexivity. Qed.

Lemma mapM_Ok {A B} (f : A -> result B) (l : list A) :
  (forall a, In a l -> exists b, f a = Ok b) -> exists bs, mapM f l = Ok bs.
Proof.
  induction l as [| a l IH]; intros Hall; simpl.
  - now exists [].
  - destruct (Hall a (or_introl eq_refl)) as [b ->].
    destruct IH as [bs ->]; [intros; apply Hall; now right |].
    simpl. now exists (b :: bs).
Qed.


Lemma reduceM_Ok {A B} (f : B -> A -> result B) (l : list A) :
  (forall acc a, In a l -> exists acc', f acc a = Ok acc') ->
  forall init, exists r, reduceM f l init = Ok r.
Proof.
  induction l as [| a l IH]; intros Hall init; simpl.
  - now exists init.
  - destruct (Hall init a (or_introl eq_refl)) as [acc' ->]. simpl.
    apply IH. intros acc b Hin. apply Hall. now right.
Qed.

Lemma mapM_In {A B} (f : A -> result B) (l : list A) bs :
  mapM f l = Ok bs ->
  forall b, In b bs -> exists a, In a l /\ f a = Ok b.
Proof.
  revert bs. induction l as [| a l IH]; simpl; intros bs Hrun b Hin.
  - inversion Hrun; subst. contradiction.
  - apply bind_Ok in Hrun. destruct Hrun as (b0 & Hb0 & Hrun).
    apply bind_Ok in Hrun. destruct Hrun as (bs0 & Hbs0 & Hrun).
    inversion Hrun; subst bs. destruct Hin as [<- | Hin].
    + exists a. split; [now left | assumption].
    + destruct (IH _ Hbs0 _ Hin) as (a' & Hin' & Ha'). eauto.
Qed.

(** Closes a goal that asks for the value a finished computation returns. *)
Ltac returns := simpl; eexists; reflexivity.

Section Acyclic.
Variable catalog : list itemDefinition.
Variable rank : option string -> nat.
Hypothesis rank_decreases : acyclic catalog rank.

(** Resolution of a typeRef returns with fuel above its rank. *)
Lemma acyclic_resolution_bound k t :
  rank t <= k ->
  exists cs, findItemDefinition (S k) (Some catalog) t = Ok cs.
Proof.
  revert t.
  induction k as [| k IH]; intros t Hrank; rewrite findItemDefinition_S;
    (destruct (find_def catalog t) as [d |] eqn:Hd; [| now exists None]);
    match goal with
    | |- context [mapM ?f ?l] =>
        assert (Hcs : exists cs, mapM f l = Ok cs);
        [apply mapM_Ok; intros c Hin;
         destruct (truthy (ic_typeRef c)) eqn:Ht; [| simpl; eauto];
         pose proof (rank_decreases t d c Hd Hin Ht) as Hlt
        | destruct Hcs as [cs ->]; simpl; eauto]
    end.
  - lia.
  - destruct (IH (ic_typeRef c)) as [sub Hsub]; [lia |].
    rewrite Hsub. simpl. eauto.
Qed.

Lemma acyclic_resolution_fuel fuel t :
  rank t < fuel ->
  exists cs, findItemDefinition fuel (Some catalog) t = Ok cs.
Proof.
  intros Hlt. destruct fuel as [| k]; [lia |].
  apply acyclic_resolution_bound. lia.
Qed.

(** What resolution returns is settled and refers to lower ranks only. *)
Lemma findItemDefinition_components fuel t comps :
  findItemDefinition fuel (Some catalog) t = Ok (Some comps) ->
  forall c, In c comps ->
    settled catalog c
    /\ (truthy (c_typeRef c) = true -> rank (c_typeRef c) < rank t).
Proof.
  destruct fuel as [| fuel]; [discriminate |].
  rewrite findItemDefinition_S.
  destruct (find_def catalog t) as [d |] eqn:Hd; [| discriminate].
  intros Hrun c Hin. apply bind_Ok in Hrun.
  destruct Hrun as (cs & Hcs & Hrun). inversion Hrun; subst cs.
  destruct (mapM_In _ _ _ Hcs c Hin) as (ic & Hic & Hc).
  apply bind_Ok in Hc. destruct Hc as (sub & Hsub & Hc).
  inversion Hc; subst c. split.
  - intros Ht Hmiss. cbn [c_typeRef c_components] in *.
    rewrite Ht in Hsub. destruct fuel as [| fuel]; [discriminate |].
    rewrite findItemDefinition_S, Hmiss in Hsub. now inversion Hsub.
  - cbn [c_typeRef]. intros Ht. exact (rank_decreases t d ic Hd Hic Ht).
Qed.

Lemma generateExampleValue_S fuel comps :
  generateExampleValue (S fuel) (Some comps) (Some catalog)
  = (acc <- reduceM (fun acc component =>
       let def :=
         if truthy (c_typeRef component)
         then find_def catalog (c_typeRef component)
         else None in
       match def with
       | Some def =>
           if negb (has_items def) && av_truthy (def_allowedValues def)
           then
             let v :=
               or_string (first_allowed_value def)
                 (toLowerCase (nullish (def_typeRef_attr def) "string")) in
             Ok (set acc (key (c_name component)) (VStr v))
           else if has_items def then
             nested <- reduceM (fun nestedAcc comp =>
               sub <- (if truthy (ic_typeRef comp)
                       then findItemDefinition fuel (Some catalog)
                              (ic_typeRef comp)
                       else Ok None) ;;
               v <- generateExampleValue fuel
                      (Some [Component (ic_name comp) (ic_typeRef comp) sub])
                      (Some catalog) ;;
               Ok (set nestedAcc (key (ic_name comp)) v))
               (or_empty (def_itemComponent def)) [] ;;
             Ok (set acc (key (c_name component)) (VObj nested))
           else
             let type := base_type def in
             Ok (set acc (key (c_name component)) (example_of_type type))
       | None =>
           if truthy (c_typeRef component) then
             v <- generateExampleValue fuel (c_components component)
                    (Some catalog) ;;
             Ok (set acc (key (c_name component)) v)
           else
             Ok (set acc (key (c_name component))
                   (example_of_type
                      (nullish (c_typeRef component) "string")))
       end) comps [] ;;
     Ok (VObj acc)).
Proof. reflexivity. Qed.

(** A field without a usable typeRef: lines 131-133. *)
Lemma generateExampleValue_untyped fuel name typeRef sub :
  truthy typeRef = false ->
  generateExampleValue (S fuel) (Some [Component name typeRef sub])
    (Some catalog)
  = Ok (VObj [(key name, example_of_type (nullish typeRef "string"))]).
Proof.
  intros Ht. rewrite generateExampleValue_S.
  cbn [reduceM c_typeRef c_name]. now rewrite Ht.
Qed.

(** Synthesis over settled components of rank at most [k] returns with
    fuel [k + 2]. *)
Lemma acyclic_synthesis_bound k :
  forall comps,
    (forall c, In c comps ->
       settled catalog c
       /\ (truthy (c_typeRef c) = true -> rank (c_typeRef c) <= k)) ->
    exists v,
      generateExampleValue (S (S k)) (Some comps) (Some catalog) = Ok v.
Proof.
  induction k as [| k IH]; intros comps Hcomps;
    rewrite generateExampleValue_S.
  all: match goal with
       | |- context [reduceM ?f ?l ?i] =>
           assert (Hacc : exists acc, reduceM f l i = Ok acc);
           [apply reduceM_Ok; intros acc c Hin;
            destruct (Hcomps c Hin) as [Hsettled Hrank]
           | destruct Hacc as [acc ->]; returns]
       end.
  all: cbv beta zeta; destruct (truthy (c_typeRef c)) eqn:Ht; [| returns].
  all: destruct (find_def catalog (c_typeRef c)) as [d |] eqn:Hd;
    [| rewrite (Hsettled Ht Hd); returns].
  all: destruct (negb (has_items d) && av_truthy (def_allowedValues d));
    [returns |]; destruct (has_items d); [| returns].
  all: match goal with
       | |- context [reduceM ?g ?m ?j] =>
           assert (Hnested : exists nested, reduceM g m j = Ok nested);
           [apply reduceM_Ok; intros nestedAcc comp Hcomp;
            destruct (truthy (ic_typeRef comp)) eqn:Htc;
            [pose proof (rank_decreases _ d comp Hd Hcomp Htc) as Hlt;
             specialize (Hrank eq_refl)
            | cbn [bind];
              rewrite generateExampleValue_untyped by assumption; returns]
           | destruct Hnested as [nested ->]; returns]
       end.
  - lia.
  - destruct (acyclic_resolution_fuel (S (S k)) (ic_typeRef comp))
      as [sub Hsub]; [lia |].
    rewrite Hsub. cbn [bind].
    destruct (IH [Component (ic_name comp) (ic_typeRef comp) sub])
      as [v Hv].
    + intros c' [<- | []]. split.
      * intros _ Hmiss. cbn [c_typeRef c_components] in *.
        rewrite findItemDefinition_S, Hmiss in Hsub. now inversion Hsub.
      * cbn [c_typeRef]. intros _. lia.
    + rewrite Hv. returns.
Qed.

(** Synthesis of what resolution returned finishes. *)
Lemma acyclic_synthesis_of_resolution k fuel t cs :
  rank t <= k ->
  findItemDefinition fuel (Some catalog) t = Ok cs ->
  exists v, generateExampleValue (S (S k)) cs (Some catalog) = Ok v.
Proof.
  intros Hrank Hrun. destruct cs as [comps |]; [| now exists VNull].
  apply acyclic_synthesis_bound. intros c Hin.
  destruct (findItemDefinition_components fuel t comps Hrun c Hin)
    as [Hsettled Hlt].
  split; [exact Hsettled | intros Ht; specialize (Hlt Ht); lia].
Qed.

End Acyclic.

Lemma reduceM_finishes {A B} (f : B -> A -> result B) (l : list A) :
  (forall acc a, In a l -> f acc a <> OutOfFuel) ->
  forall init, reduceM f l init <> OutOfFuel.
Proof.
  induction l as [| a l IH]; intros Hall init; simpl; [discriminate |].
  pose proof (Hall init a (or_introl eq_refl)) as Ha.
  destruct (f init a) as [acc | e |]; simpl;
    [| discriminate | contradiction].
  apply IH. intros acc' b Hin. apply Hall. now right.
Qed.

Lemma reduceM_invariant {A B} (P : B -> Prop) (f : B -> A -> result B)
  (l : list A) :
  (forall acc a acc', In a l -> P acc -> f acc a = Ok acc' -> P acc') ->
  forall init r, P init -> reduceM f l init = Ok r -> P r.
Proof.
  induction l as [| a l IH]; intros Hstep init r Hinit Hrun; simpl in Hrun.
  - now inversion Hrun; subst.
  - apply bind_Ok in Hrun. destruct Hrun as (acc & Ha & Hrun).
    apply (IH (fun acc0 b acc' Hin => Hstep acc0 b acc' (or_intror Hin))
             acc r); [| exact Hrun].
    exact (Hstep init a acc (or_introl eq_refl) Hinit Ha).
Qed.

Lemma in_set {A} (obj : list (string * A)) k v k' v' :
  In (k', v') (set obj k v) -> v' = v \/ In (k', v') obj.
Proof.
  induction obj as [| [k0 v0] obj IH]; simpl.
  - intros [H | []]. inversion H. now left.
  - destruct (k0 =? k); simpl.
    + intros [H | H]; [inversion H; now left | right; now right].
    + intros [H | H]; [right; now left |].
      destruct (IH H) as [-> | Hin]; [now left | right; now right].
Qed.

(** On a document whose catalog is acyclic the handler finishes: it returns
    a schema or throws. *)
Lemma acyclic_extraction_finishes parsed rank :
  (forall defs catalog,
     dmn_definitions parsed = Some defs ->
     dmn_itemDefinition defs = Some catalog ->
     acyclic catalog rank) ->
  exists fuel, handleFileUpload fuel parsed <> OutOfFuel.
Proof.
  intros Hacyclic. unfold handleFileUpload.
  destruct (dmn_definitions parsed) as [defs |] eqn:Hdefs;
    [| exists 0; discriminate].
  destruct (dmn_itemDefinition defs) as [catalog |] eqn:Hcatalog.
  - specialize (Hacyclic defs catalog eq_refl Hcatalog).
    pose (bound := list_max
                     (map (fun i => match in_variable i with
                                    | Some v => rank (var_typeRef v)
                                    | None => 0
                                    end) (or_empty (dmn_inputData defs)))).
    assert (Hbound : forall i v,
              In i (or_empty (dmn_inputData defs)) ->
              in_variable i = Some v -> rank (var_typeRef v) <= bound).
    { intros i v Hin Hv.
      pose proof (proj1 (list_max_le _ bound) (le_n _)) as Hall.
      rewrite Forall_forall in Hall.
      specialize (Hall _ (in_map _ _ _ Hin)). cbv beta in Hall.
      now rewrite Hv in Hall. }
    exists (S (S bound)).
    destruct (inputDataMap (S (S bound)) defs) as [m | e |] eqn:Hmap;
      [| discriminate |].
    + assert (Hgood : forall k e, In (k, e) m ->
                exists v, generateExampleValue (S (S bound)) (e_components e)
                            (Some catalog) = Ok v).
      { unfold inputDataMap in Hmap. rewrite Hcatalog in Hmap.
        refine (reduceM_invariant
                  (fun m => forall k e, In (k, e) m ->
                     exists v, generateExampleValue (S (S bound))
                                 (e_components e) (Some catalog) = Ok v)
                  _ _ _ [] m _ Hmap); [| intros k e []].
        intros acc i acc' Hin Hacc Hstep.
        destruct (in_variable i) as [v |] eqn:Hv; [| discriminate].
        apply bind_Ok in Hstep. destruct Hstep as (cs & Hcs & Hstep).
        inversion Hstep; subst acc'. intros k e He.
        apply in_set in He. destruct He as [-> | He]; [| eauto].
        cbn [e_components].
        exact (acyclic_synthesis_of_resolution catalog rank Hacyclic bound _
                 _ cs (Hbound i v Hin Hv) Hcs). }
      cbn [bind].
      destruct (mapM_Ok
                  (fun kd => v <- generateExampleValue (S (S bound))
                                    (e_components (snd kd)) (Some catalog) ;;
                             Ok (fst kd, v)) m) as [entries Hentries].
      * intros [k e] Hin. destruct (Hgood k e Hin) as [v Hv].
        cbn [fst snd]. rewrite Hv. returns.
      * rewrite Hentries. discriminate.
    + exfalso. revert Hmap. unfold inputDataMap. rewrite Hcatalog.
      apply reduceM_finishes. intros acc i Hin.
      destruct (in_variable i) as [v |] eqn:Hv; [| discriminate].
      destruct (acyclic_resolution_fuel catalog rank Hacyclic
                  (S (S bound)) (var_typeRef v)) as [cs ->];
        [specialize (Hbound i v Hin Hv); lia | discriminate].
  - exists 1. unfold inputDataMap. rewrite Hcatalog.
    destruct (or_empty (dmn_inputData defs)) as [| i rest];
      [discriminate |].
    cbn [reduceM]. destruct (in_variable i); discriminate.
Qed.

(** ** Objects as insertion-ordered association lists *)

Section Objects.
Context {A : Type}.
Implicit Types (obj : list (string * A)) (k : string) (v : A).

Lemma get_set_same obj k v : get (set obj k v) k = Some v.
Proof.
  induction obj as [| [k' v'] obj IH]; simpl.
  - now rewrite String.eqb_refl.
  - destruct (k' =? k) eqn:E; simpl.
    + now rewrite String.eqb_refl.
    + now rewrite E.
Qed.

Lemma get_set_other obj k k' v :
  k <> k' -> get (set obj k v) k' = get obj k'.
Proof.
  intros Hne. induction obj as [| [k0 v0] obj IH]; simpl.
  - apply String.eqb_neq in Hne. now rewrite Hne.
  - destruct (k0 =? k) eqn:E; simpl.
    + apply String.eqb_eq in E. subst k0.
      apply String.eqb_neq in Hne. now rewrite Hne.
    + now rewrite IH.
Qed.

Lemma in_keys_set obj k v k' :
  In k' (keys (set obj k v)) <-> k' = k \/ In k' (keys obj).
Proof.
  unfold keys. induction obj as [| [k0 v0] obj IH]; simpl.
  - intuition.
  - destruct (k0 =? k) eqn:E; simpl.
    + apply String.eqb_eq in E. subst k0. intuition.
    + rewrite IH. intuition.
Qed.

Lemma NoDup_keys_set obj k v :
  NoDup (keys obj) -> NoDup (keys (set obj k v)).
Proof.
  induction obj as [| [k0 v0] obj IH]; simpl; intros Hnd.
  - constructor; [intros [] | constructor].
  - inversion Hnd as [| ? ? Hnotin Hnd']; subst.
    destruct (k0 =? k) eqn:E; simpl.
    + apply String.eqb_eq in E. subst k0. now constructor.
    + constructor; [| now apply IH].
      intros Hin. apply (in_keys_set obj k v k0) in Hin.
      destruct Hin as [-> | Hin]; [| contradiction].
      now rewrite String.eqb_refl in E.
Qed.

Lemma set_fresh obj k v :
  ~ In k (keys obj) -> set obj k v = (obj ++ [(k, v)])%list.
Proof.
  induction obj as [| [k0 v0] obj IH]; simpl; intros Hnotin; [reflexivity |].
  destruct (k0 =? k) eqn:E.
  - apply String.eqb_eq in E. subst k0. exfalso. apply Hnotin. now left.
  - rewrite IH; [reflexivity |]. intros Hin. apply Hnotin. now right.
Qed.

Lemma fold_set_NoDup (l acc : list (string * A)) :
  NoDup (keys (acc ++ l)%list) ->
  fold_left (fun acc kv => set acc (fst kv) (snd kv)) l acc
  = (acc ++ l)%list.
Proof.
  revert acc. induction l as [| [k v] l IH]; intros acc Hnd; simpl.
  - now rewrite app_nil_r.
  - assert (Hfresh : ~ In k (keys acc)).
    { unfold keys in *. rewrite map_app in Hnd. simpl in Hnd.
      apply NoDup_remove_2 in Hnd. intros Hin. apply Hnd.
      apply in_or_app. now left. }
    rewrite set_fresh by exact Hfresh.
    rewrite IH; rewrite <- app_assoc; [reflexivity | exact Hnd].
Qed.

(** Rebuilding an object from its own entries gives it back. *)
Lemma fromEntries_NoDup (l : list (string * A)) :
  NoDup (keys l) -> fromEntries l = l.
Proof. intros Hnd. unfold fromEntries. now rewrite fold_set_NoDup. Qed.

End Objects.

Lemma reduceM_app {A B} (f : B -> A -> result B) (l1 l2 : list A) init :
  reduceM f (l1 ++ l2)%list init
  = (acc <- reduceM f l1 init ;; reduceM f l2 acc).
Proof.
  revert init. induction l1 as [| a l1 IH]; intros init; simpl; [reflexivity |].
  destruct (f init a); simpl; auto.
Qed.

(** ** The output entry of an input variable *)

Section ReduceSet.
Context {A V : Type}.
Variable step : list (string * V) -> A -> result (list (string * V)).
Variable key_of : A -> string.
Hypothesis step_sets :
  forall acc a acc', step acc a = Ok acc' ->
  exists v, acc' = set acc (key_of a) v.

Lemma reduceM_NoDup l acc m :
  reduceM step l acc = Ok m -> NoDup (keys acc) -> NoDup (keys m).
Proof.
  revert acc. induction l as [| a l IH]; simpl; intros acc Hrun Hnd.
  - now inversion Hrun; subst.
  - apply bind_Ok in Hrun. destruct Hrun as (acc' & Hstep & Hrest).
    apply (IH _ Hrest). destruct (step_sets _ _ _ Hstep) as [v ->].
    now apply NoDup_keys_set.
Qed.

Lemma reduceM_get_other l acc m k :
  reduceM step l acc = Ok m ->
  (forall a, In a l -> key_of a <> k) ->
  get m k = get acc k.
Proof.
  revert acc. induction l as [| a l IH]; simpl; intros acc Hrun Hother.
  - now inversion Hrun; subst.
  - apply bind_Ok in Hrun. destruct Hrun as (acc' & Hstep & Hrest).
    rewrite (IH _ Hrest) by auto.
    destruct (step_sets _ _ _ Hstep) as [v ->].
    apply get_set_other. auto.
Qed.

Lemma reduceM_split pre a post init m :
  reduceM step (pre ++ a :: post)%list init = Ok m ->
  exists acc acc',
    reduceM step pre init = Ok acc /\ step acc a = Ok acc'
    /\ reduceM step post acc' = Ok m.
Proof.
  rewrite reduceM_app. intros Hrun.
  apply bind_Ok in Hrun. destruct Hrun as (acc & Hpre & Hrun).
  simpl in Hrun. apply bind_Ok in Hrun.
  destruct Hrun as (acc' & Hstep & Hpost). eauto.
Qed.

End ReduceSet.

Lemma mapM_entries {E V} (g : E -> result V) (m : list (string * E)) entries :
  mapM (fun kd => v <- g (snd kd) ;; Ok (fst kd, v)) m = Ok entries ->
  keys entries = keys m
  /\ forall k e, get m k = Some e ->
     exists v, g e = Ok v /\ get entries k = Some v.
Proof.
  revert entries. induction m as [| [k0 e0] m IH]; simpl; intros entries Hrun.
  - inversion Hrun; subst. split; [reflexivity | discriminate].
  - apply bind_Ok in Hrun. destruct Hrun as ([k1 v1] & Hhead & Hrun).
    apply bind_Ok in Hhead. destruct Hhead as (v0 & Hg & Hhead).
    inversion Hhead; subst k1 v1.
    apply bind_Ok in Hrun. destruct Hrun as (rest & Hrest & Hrun).
    inversion Hrun; subst entries.
    destruct (IH _ Hrest) as [Hkeys Hget]. split.
    + simpl. now rewrite Hkeys.
    + intros k e. simpl. destruct (k0 =? k).
      * intros He. inversion He; subst e. eauto.
      * apply Hget.
Qed.

(** When the handler produces a schema, the entry of an input variable that
    no later input shadows is [generateExampleValue] of what
    [findItemDefinition] returned for its [typeRef]. *)
Lemma handleFileUpload_entry fuel parsed defs pre input post schema :
  dmn_definitions parsed = Some defs ->
  or_empty (dmn_inputData defs) = (pre ++ input :: post)%list ->
  (forall later, In later post ->
     key (in_name later) <> key (in_name input)) ->
  handleFileUpload fuel parsed = Ok schema ->
  exists v components example props,
    in_variable input = Some v
    /\ findItemDefinition fuel (dmn_itemDefinition defs) (var_typeRef v)
       = Ok components
    /\ generateExampleValue fuel components (dmn_itemDefinition defs)
       = Ok example
    /\ schema = VObj props
    /\ get props (key (in_name input)) = Some example.
Proof.
  intros Hdefs Hinputs Hlast Hrun. unfold handleFileUpload in Hrun.
  rewrite Hdefs in Hrun.
  apply bind_Ok in Hrun. destruct Hrun as (m & Hmap & Hrun).
  apply bind_Ok in Hrun. destruct Hrun as (entries & Hentries & Hrun).
  inversion Hrun; subst schema. clear Hrun.
  unfold inputDataMap in Hmap. rewrite Hinputs in Hmap.
  assert (Hsets : forall acc a acc',
    match in_variable a with
    | None => Throw undefined_typeRef
    | Some v =>
        components <- findItemDefinition fuel (dmn_itemDefinition defs)
                        (var_typeRef v) ;;
        Ok (set acc (key (in_name a))
              {| e_typeRef := var_typeRef v;
                 e_components := components;
                 e_namespace := in_id a |})
    end = Ok acc' ->
    exists e, acc' = set acc (key (in_name a)) e).
  { intros acc a acc' H. destruct (in_variable a); [| discriminate].
    apply bind_Ok in H. destruct H as (cs & _ & H). inversion H. eauto. }
  pose proof (reduceM_NoDup _ _ Hsets _ _ _ Hmap (NoDup_nil _)) as Hnd.
  destruct (reduceM_split _ _ _ _ _ _ Hmap) as (acc & acc' & _ & Hstep & Hpost).
  destruct (in_variable input) as [v |]; [| discriminate].
  apply bind_Ok in Hstep. destruct Hstep as (components & Hfind & Hstep).
  inversion Hstep; subst acc'. clear Hstep.
  pose proof (reduceM_get_other _ _ Hsets _ _ _ (key (in_name input)) Hpost Hlast)
    as Hget.
  rewrite get_set_same in Hget.
  destruct (mapM_entries
              (fun e => generateExampleValue fuel (e_components e)
                          (dmn_itemDefinition defs)) _ _ Hentries)
    as [Hkeys Hlookup].
  destruct (Hlookup _ _ Hget) as (example & Hgen & Hentry).
  exists v, components, example, (fromEntries entries).
  repeat split; try assumption.
  rewrite fromEntries_NoDup; [assumption | now rewrite Hkeys].
Qed.

(** ** The allowed-values pattern finds the leftmost quoted literal *)

Module PatternFacts.
Import Pattern.

Lemma is_dquote_true c : is_dquote c = true <-> c = dquote.
Proof. apply Ascii.eqb_eq. Qed.

Lemma is_dquote_false c : is_dquote c = false <-> c <> dquote.
Proof. apply Ascii.eqb_neq. Qed.

Lemma span_unquoted_spec s run after :
  span_unquoted s = (run, after) ->
  s = (run ++ after)%list /\ ~ In dquote run
  /\ (after = [] \/ exists rest, after = dquote :: rest).
Proof.
  revert run after. induction s as [| c s IH]; simpl; intros run after H.
  - inversion H; subst. simpl. intuition.
  - destruct (is_dquote c) eqn:E.
    + inversion H; subst. apply is_dquote_true in E. subst c.
      simpl. intuition eauto.
    + destruct (span_unquoted s) as [run' after'] eqn:Hs.
      inversion H; subst. destruct (IH _ _ eq_refl) as (-> & Hrun & Hafter).
      apply is_dquote_false in E. simpl. intuition.
Qed.

Lemma span_unquoted_literal lit b :
  ~ In dquote lit ->
  span_unquoted (lit ++ dquote :: b) = (lit, dquote :: b).
Proof.
  induction lit as [| c lit IH]; simpl; intros Hlit.
  - reflexivity.
  - assert (Hc : is_dquote c = false).
    { apply is_dquote_false. intros ->. apply Hlit. now left. }
    rewrite Hc, IH; [reflexivity |]. intros Hin. apply Hlit. now right.
Qed.

(** An attempt succeeds exactly on a quoted literal at the start. *)
Lemma match_at_Some s m after :
  match_at s = Some (m, after) <->
  exists lit, occurs_chars s [] lit after
              /\ m = (dquote :: lit ++ [dquote])%list.
Proof.
  split.
  - destruct s as [| c rest]; simpl; [discriminate |].
    destruct (is_dquote c) eqn:E; [| discriminate].
    apply is_dquote_true in E. subst c.
    destruct (span_unquoted rest) as [run tail] eqn:Hs.
    destruct (span_unquoted_spec _ _ _ Hs) as (-> & Hrun & Htail).
    destruct run as [| r run]; [discriminate |].
    destruct Htail as [-> | [tail' ->]]; [discriminate |].
    intros H. inversion H; subst. exists (r :: run).
    repeat split; [discriminate | assumption].
  - intros (lit & (-> & Hne & Hlit) & ->).
    change (match_at ([] ++ dquote :: lit ++ dquote :: after)) with
      (match span_unquoted (lit ++ dquote :: after) with
       | ((_ :: _) as run, q :: after') =>
           Some ((dquote :: run ++ [q])%list, after')
       | _ => None
       end).
    rewrite (span_unquoted_literal _ _ Hlit).
    destruct lit; [contradiction | reflexivity].
Qed.

Lemma match_at_None_tail c rest a lit b :
  match_at (c :: rest) = None ->
  occurs_chars (c :: rest) a lit b ->
  exists a', a = c :: a' /\ occurs_chars rest a' lit b.
Proof.
  intros Hnone [Hs Hlit]. destruct a as [| c' a'].
  - assert (Hsome : match_at (c :: rest)
                    = Some ((dquote :: lit ++ [dquote])%list, b)).
    { apply match_at_Some. exists lit.
      split; [split; assumption | reflexivity]. }
    congruence.
  - simpl in Hs. inversion Hs; subst. exists a'.
    split; [reflexivity | split; [reflexivity | assumption]].
Qed.

Lemma scan_cons fuel c rest :
  scan (S fuel) (c :: rest)
  = match match_at (c :: rest) with
    | Some (m, after) => m :: scan fuel after
    | None => scan fuel rest
    end.
Proof. reflexivity. Qed.

(** The first match of the scan is the leftmost quoted literal. *)
Lemma scan_first fuel s :
  List.length s <= fuel ->
  (exists a lit b, occurs_chars s a lit b) ->
  exists a lit b,
    occurs_chars s a lit b
    /\ (forall a' lit' b', occurs_chars s a' lit' b' ->
        List.length a <= List.length a')
    /\ hd_error (scan fuel s) = Some (dquote :: lit ++ [dquote])%list.
Proof.
  revert s. induction fuel as [| fuel IH]; intros s Hlen Hex.
  - destruct s; [| simpl in Hlen; lia].
    destruct Hex as (a & lit & b & Hs & _). now destruct a.
  - destruct s as [| c rest].
    + destruct Hex as (a & lit & b & Hs & _). now destruct a.
    + rewrite scan_cons.
      destruct (match_at (c :: rest)) as [[m after] |] eqn:Hm.
      * apply match_at_Some in Hm. destruct Hm as (lit & Hocc & ->).
        exists [], lit, after.
        split; [exact Hocc | split; [intros; simpl; lia | reflexivity]].
      * destruct Hex as (a0 & lit0 & b0 & Hocc0).
        destruct (match_at_None_tail _ _ _ _ _ Hm Hocc0) as (a0' & -> & Hocc0').
        destruct (IH rest) as (a & lit & b & Hocc & Hmin & Hhd);
          [simpl in Hlen; lia | eauto |].
        exists (c :: a), lit, b. split; [| split].
        -- destruct Hocc as [-> Hlit]. now split.
        -- intros a' lit' b' Hocc'.
           destruct (match_at_None_tail _ _ _ _ _ Hm Hocc') as (a'' & -> & Hocc'').
           simpl. apply le_n_S. eapply Hmin. exact Hocc''.
        -- exact Hhd.
Qed.

(** Whichever occurrence is leftmost, the scan's first match is that one. *)
Lemma scan_leftmost fuel s a lit b :
  List.length s <= fuel ->
  occurs_chars s a lit b ->
  (forall a' lit' b', occurs_chars s a' lit' b' ->
   List.length a <= List.length a') ->
  hd_error (scan fuel s) = Some (dquote :: lit ++ [dquote])%list.
Proof.
  revert s a. induction fuel as [| fuel IH]; intros s a Hlen Hocc Hmin.
  - destruct s; [| simpl in Hlen; lia].
    destruct Hocc as [Hs _]. now destruct a.
  - destruct s as [| c rest].
    + destruct Hocc as [Hs _]. now destruct a.
    + rewrite scan_cons.
      destruct (match_at (c :: rest)) as [[m after] |] eqn:Hm.
      * pose proof Hm as Hm'. apply match_at_Some in Hm'.
        destruct Hm' as (lit0 & Hocc0 & _).
        apply Hmin in Hocc0. destruct a; [| simpl in Hocc0; lia].
        assert (Hsome : match_at (c :: rest)
                        = Some ((dquote :: lit ++ [dquote])%list, b)).
        { apply match_at_Some. exists lit. now split. }
        rewrite Hm in Hsome. now inversion Hsome.
      * destruct (match_at_None_tail _ _ _ _ _ Hm Hocc) as (a0 & -> & Hocc0).
        apply (IH rest a0); [simpl in Hlen; lia | exact Hocc0 |].
        intros a' lit' b' [-> Hlit'].
        specialize (Hmin (c :: a') lit' b'). simpl in Hmin.
        apply le_S_n. apply Hmin. now split.
Qed.


Lemma chars_app a b :
  list_ascii_of_string (a ++ b)
  = (list_ascii_of_string a ++ list_ascii_of_string b)%list.
Proof. induction a as [| c a IH]; simpl; [reflexivity | now rewrite IH]. Qed.

Lemma string_of_app a b :
  string_of_list_ascii (a ++ b)%list
  = string_of_list_ascii a ++ string_of_list_ascii b.
Proof. induction a as [| c a IH]; simpl; [reflexivity | now rewrite IH]. Qed.

Lemma chars_length a : List.length (list_ascii_of_string a) = String.length a.
Proof. induction a as [| c a IH]; simpl; [reflexivity | now rewrite IH]. Qed.

Lemma chars_inj a b :
  list_ascii_of_string a = list_ascii_of_string b -> a = b.
Proof.
  intros H. rewrite <- (string_of_list_ascii_of_string a), H.
  apply string_of_list_ascii_of_string.
Qed.

Lemma string_of_quoted lit :
  string_of_list_ascii (dquote :: lit ++ [dquote])%list
  = quoted (string_of_list_ascii lit).
Proof. unfold quoted. simpl. now rewrite string_of_app. Qed.

Lemma literal_chars_iff lit :
  literal lit <-> literal_chars (list_ascii_of_string lit).
Proof.
  unfold literal, literal_chars. destruct lit; simpl; intuition congruence.
Qed.

Lemma occurs_to_chars text a lit b :
  occurs text a lit b ->
  occurs_chars (list_ascii_of_string text) (list_ascii_of_string a)
    (list_ascii_of_string lit) (list_ascii_of_string b).
Proof.
  intros [-> Hlit]. split; [| now apply literal_chars_iff].
  unfold quoted. rewrite chars_app. simpl. rewrite !chars_app.
  simpl. now rewrite <- app_assoc.
Qed.

Lemma occurs_of_chars text a lit b :
  occurs_chars (list_ascii_of_string text) a lit b ->
  occurs text (string_of_list_ascii a) (string_of_list_ascii lit)
    (string_of_list_ascii b).
Proof.
  intros [Hs Hlit]. split.
  - apply chars_inj. rewrite Hs. unfold quoted.
    rewrite chars_app. simpl. rewrite !chars_app. simpl.
    rewrite !list_ascii_of_string_of_list_ascii. now rewrite <- app_assoc.
  - apply literal_chars_iff.
    now rewrite list_ascii_of_string_of_list_ascii.
Qed.

Lemma strip_trailing_quote s :
  strip_trailing (s ++ String dquote "") = s.
Proof.
  induction s as [| c s IH]; [reflexivity |].
  change (String c s ++ String dquote "")
    with (String c (s ++ String dquote "")).
  simpl. destruct (s ++ String dquote "") eqn:E.
  - destruct s; discriminate.
  - now rewrite IH.
Qed.

Lemma strip_quoted lit : strip (quoted lit) = lit.
Proof. unfold strip, quoted. simpl. apply strip_trailing_quote. Qed.

(** A text with a quoted literal has a leftmost one, and it is what line 111
    extracts first, without its quotes. *)
Lemma first_match text :
  (exists a lit b, occurs text a lit b) ->
  exists a lit b,
    leftmost text a lit b
    /\ hd_error (map strip (matchAll text)) = Some lit.
Proof.
  intros (a0 & lit0 & b0 & Hocc0). apply occurs_to_chars in Hocc0.
  destruct (scan_first (List.length (list_ascii_of_string text))
              (list_ascii_of_string text) (le_n _))
    as (a & lit & b & Hocc & Hmin & Hhd); [eauto |].
  exists (string_of_list_ascii a), (string_of_list_ascii lit),
    (string_of_list_ascii b).
  split; [split; [now apply occurs_of_chars |] |].
  - intros a' lit' b' Hocc'. apply occurs_to_chars in Hocc'.
    apply Hmin in Hocc'.
    now rewrite <- !chars_length, list_ascii_of_string_of_list_ascii.
  - unfold matchAll.
    destruct (scan _ _) as [| m ms]; [discriminate |].
    simpl in Hhd. inversion Hhd; subst m. cbn [map hd_error].
    now rewrite string_of_quoted, strip_quoted.
Qed.

Lemma leftmost_match text a lit b :
  leftmost text a lit b -> hd_error (map strip (matchAll text)) = Some lit.
Proof.
  intros [Hocc Hmin]. unfold matchAll.
  assert (Hhd : hd_error (scan (List.length (list_ascii_of_string text))
                            (list_ascii_of_string text))
                = Some (dquote :: list_ascii_of_string lit ++ [dquote])%list).
  { apply (scan_leftmost _ _ (list_ascii_of_string a) _
             (list_ascii_of_string b)).
    - apply le_n.
    - now apply occurs_to_chars.
    - intros a' lit' b' Hocc'. apply occurs_of_chars in Hocc'.
      apply Hmin in Hocc'.
      now rewrite <- !chars_length, list_ascii_of_string_of_list_ascii
        in Hocc'. }
  destruct (scan _ _) as [| m ms]; [discriminate |].
  simpl in Hhd. inversion Hhd; subst m. cbn [map hd_error].
  now rewrite string_of_quoted, strip_quoted, string_of_list_ascii_of_string.
Qed.



End PatternFacts.

(** * The claims *)

(** A run that finished with some fuel finishes alike with more. *)
Lemma handleFileUpload_more_fuel k n parsed r :
  handleFileUpload k parsed = r -> r <> OutOfFuel -> k <= n ->
  handleFileUpload n parsed = r.
Proof.
  intros Hrun Hdone Hle. subst r.
  exact (refines_done _ _ (handleFileUpload_mono k n parsed Hle) Hdone).
Qed.

(** C1: a document with the single input Applicant of type Person, where the
    catalog resolves Person to the fields name (no typeRef) and age (typeRef
    Number) and resolves Number to a definition without components and
    allowed values whose base type is number, yields the mapping
    Applicant -> (name -> example_string, age -> 0), with any fuel from 2
    on. *)
Theorem applicant_person_example
  (n : nat) (catalog : list itemDefinition) (id : option string)
  (person number : itemDefinition) :
  find_def catalog (Some "Person") = Some person ->
  def_itemComponent person
  = Some [ {| ic_name := Some "name"; ic_typeRef := None |};
           {| ic_name := Some "age"; ic_typeRef := Some "Number" |} ] ->
  find_def catalog (Some "Number") = Some number ->
  has_items number = false ->
  av_truthy (def_allowedValues number) = false ->
  base_type number = "number" ->
  handleFileUpload (S (S n))
    {| dmn_definitions :=
         Some {| dmn_inputData :=
                   Some [ {| in_name := Some "Applicant";
                             in_id := id;
                             in_variable :=
                               Some {| var_typeRef := Some "Person" |} |} ];
                 dmn_itemDefinition := Some catalog |} |}
  = Ok (VObj [("Applicant",
               VObj [("name", VStr "example_string"); ("age", VNum 0)])]).
Proof.
  intros Hperson Hfields Hnumber Hitems Hav Hbase.
  assert (Hleaf : or_empty (def_itemComponent number) = []).
  { unfold has_items in Hitems.
    destruct (def_itemComponent number) as [[| c cs] |];
      [reflexivity | discriminate | reflexivity]. }
  unfold handleFileUpload, inputDataMap. cbn [dmn_definitions dmn_inputData
    dmn_itemDefinition or_empty reduceM in_variable var_typeRef in_name in_id].
  cbn [findItemDefinition]. rewrite Hperson, Hfields.
  cbn [or_empty mapM ic_typeRef ic_name truthy bind].
  cbn [String.eqb Ascii.eqb Bool.eqb negb]. cbn [findItemDefinition bind].
  rewrite Hnumber, Hleaf. cbn [mapM bind key nullish Js.set mapM snd fst
    e_components].
  cbn [generateExampleValue or_empty reduceM c_typeRef c_name c_components
    truthy bind].
  cbn [String.eqb Ascii.eqb Bool.eqb negb]. rewrite Hnumber, Hitems, Hav.
  cbn [negb andb bind key nullish Js.set]. fold (base_type number).
  rewrite Hbase. reflexivity.
Qed.

Lemma applicant_person_example_witness :
  handleFileUpload 2 Examples.applicant_doc
  = Ok (VObj [("Applicant",
               VObj [("name", VStr "example_string"); ("age", VNum 0)])]).
Proof.
  apply (applicant_person_example 0 [Examples.person; Examples.number] None
           Examples.person Examples.number); reflexivity.
Defined.

(** C2 (the code departs from the claim): in the document where Person has
    the field address of type Address and Address has the fields city and
    zip (of type Number, base type number), the value of address maps city
    to the mapping (city -> example_string) and zip to the mapping
    (zip -> 0): every field of a nested composite is wrapped once more under
    its own name, where the claim promises the field's own example. *)
Theorem nested_composite_fields_are_wrapped (n : nat) :
  handleFileUpload (S (S (S n))) Examples.nested_doc
  = Ok (VObj [("Applicant",
               VObj [("address",
                      VObj [("city", VObj [("city", VStr "example_string")]);
                            ("zip", VObj [("zip", VNum 0)])])])]).
Proof.
  apply (handleFileUpload_more_fuel 3); [| discriminate | lia].
  vm_compute. reflexivity.
Qed.

(** C3, the claim as stated fails: with no definition named Currency, the
    input Price of type Currency and the field amount of type Currency both
    get null, not the string example_currency that the classification rule
    gives for that name. *)
Lemma undeclared_currency_is_null :
  handleFileUpload 2 Examples.currency_doc
  = Ok (VObj [("Price", VNull); ("Order", VObj [("amount", VNull)])])
  /\ example_of_type "Currency" = VStr "example_currency"
  /\ VNull <> example_of_type "Currency".
Proof.
  split; [vm_compute; reflexivity |].
  split; [reflexivity | discriminate].
Qed.

(** C3 as amended: when the catalog has no entry for the typeRef of an input,
    resolution returns null and synthesis turns it into null, and the handler
    puts null under the input's name; a field whose typeRef is absent gets
    the string example_string. *)
Theorem unresolved_typeRef_examples
  (n : nat) (catalog : list itemDefinition) (typeRef : option string)
  (name id : option string)
  (field_name : option string) (sub : option (list component)) :
  find_def catalog typeRef = None ->
  findItemDefinition (S n) (Some catalog) typeRef = Ok None
  /\ generateExampleValue (S n) None (Some catalog) = Ok VNull
  /\ handleFileUpload (S n)
       {| dmn_definitions :=
            Some {| dmn_inputData :=
                      Some [ {| in_name := name;
                                in_id := id;
                                in_variable :=
                                  Some {| var_typeRef := typeRef |} |} ];
                    dmn_itemDefinition := Some catalog |} |}
     = Ok (VObj [(key name, VNull)])
  /\ generateExampleValue (S n) (Some [Component field_name None sub])
       (Some catalog)
     = Ok (VObj [(key field_name, VStr "example_string")]).
Proof.
  intros Hmiss.
  assert (Hfind : findItemDefinition (S n) (Some catalog) typeRef = Ok None).
  { simpl. now rewrite Hmiss. }
  repeat split.
  - exact Hfind.
  - unfold handleFileUpload, inputDataMap.
    cbn [dmn_definitions dmn_inputData dmn_itemDefinition or_empty reduceM
         in_variable var_typeRef in_name in_id].
    rewrite Hfind. reflexivity.
Qed.

Lemma unresolved_typeRef_examples_witness :
  findItemDefinition 1 (Some [Examples.order]) (Some "Currency") = Ok None
  /\ generateExampleValue 1 None (Some [Examples.order]) = Ok VNull
  /\ handleFileUpload 1
       (Examples.doc (Some [Examples.input "Price" (Some "Currency")])
          (Some [Examples.order]))
     = Ok (VObj [("Price", VNull)])
  /\ generateExampleValue 1 (Some [Component (Some "note") None None])
       (Some [Examples.order])
     = Ok (VObj [("note", VStr "example_string")]).
Proof.
  apply (unresolved_typeRef_examples 0 [Examples.order] (Some "Currency")
           (Some "Price") None (Some "note") None).
  reflexivity.
Defined.

Lemma self_reference_needs_more_fuel fuel :
  findItemDefinition fuel (Some [Examples.node]) (Some "Node") = OutOfFuel.
Proof.
  induction fuel as [| fuel IH]; [reflexivity |].
  simpl in IH |- *. now rewrite IH.
Qed.

(** C4, the claim as stated fails: for the definition Node whose field next
    has type Node, resolution finishes with no amount of fuel, and neither
    does the handler on a document with an input of type Node: no placeholder
    is ever produced. *)
Lemma self_reference_diverges :
  diverges (fun fuel =>
              findItemDefinition fuel (Some [Examples.node]) (Some "Node"))
  /\ diverges (fun fuel => handleFileUpload fuel Examples.node_doc).
Proof.
  split; intros fuel.
  - apply self_reference_needs_more_fuel.
  - unfold handleFileUpload, inputDataMap.
    cbn [Examples.node_doc Examples.doc dmn_definitions dmn_inputData
         dmn_itemDefinition or_empty reduceM Examples.input in_variable
         var_typeRef].
    now rewrite self_reference_needs_more_fuel.
Qed.

(** C4 as amended: when the catalog is acyclic (a rank decreases along every
    reference from a definition to the type of one of its components),
    resolution of any typeRef returns, with fuel one more than the rank of
    the typeRef, either null or the resolved components; it does not throw. *)
Theorem acyclic_resolution_terminates
  (catalog : list itemDefinition) (rank : option string -> nat)
  (typeRef : option string) :
  acyclic catalog rank ->
  exists components,
    findItemDefinition (S (rank typeRef)) (Some catalog) typeRef
    = Ok components.
Proof.
  intros Hacyclic.
  now apply (acyclic_resolution_bound catalog rank Hacyclic).
Qed.

Lemma acyclic_resolution_terminates_witness :
  exists components,
    findItemDefinition 2 (Some [Examples.person; Examples.number])
      (Some "Person")
    = Ok components.
Proof.
  apply (acyclic_resolution_terminates
           [Examples.person; Examples.number]
           (fun t => if strict_eq t (Some "Person") then 1 else 0)
           (Some "Person")).
  intros t d c Hfind Hin Htruthy.
  unfold find_def in Hfind. cbn [find Examples.person Examples.number
    Examples.composite Examples.primitive def_name] in Hfind.
  destruct (strict_eq (Some "Person") t) eqn:Hp.
  - inversion Hfind; subst d. cbn in Hin.
    destruct Hin as [<- | [<- | []]]; [discriminate |].
    apply strict_eq_true in Hp. subst t. simpl. lia.
  - destruct (strict_eq (Some "Number") t); [| discriminate].
    inversion Hfind; subst d. cbn in Hin. contradiction.
Defined.

(** A field whose typeRef resolves to a definition without components:
    lines 110-112 when [dmn:allowedValues] is truthy, lines 123-126
    otherwise. *)
Lemma generateExampleValue_leaf n catalog name typeRef sub def :
  truthy typeRef = true ->
  find_def catalog typeRef = Some def ->
  has_items def = false ->
  generateExampleValue (S n) (Some [Component name typeRef sub])
    (Some catalog)
  = Ok (VObj [(key name,
               if av_truthy (def_allowedValues def)
               then VStr (or_string (first_allowed_value def)
                            (toLowerCase
                               (nullish (def_typeRef_attr def) "string")))
               else example_of_type (base_type def))]).
Proof.
  intros Htruthy Hfind Hitems.
  cbn [generateExampleValue or_empty reduceM c_typeRef c_name bind].
  rewrite Htruthy, Hfind, Hitems. cbn [negb andb].
  destruct (av_truthy (def_allowedValues def)); reflexivity.
Qed.

(** C5, the claim as stated fails: the field value of type Amount, whose
    base type is written NUMBER, gets the string example_number and not 0,
    although NUMBER is a casing of number. *)
Lemma uppercase_number_is_not_zero :
  handleFileUpload 2 Examples.reading_doc
  = Ok (VObj [("Reading", VObj [("value", VStr "example_number")])])
  /\ toLowerCase "NUMBER" = "number"
  /\ VStr "example_number" <> VNum 0.
Proof.
  split; [vm_compute; reflexivity |].
  split; [reflexivity | discriminate].
Qed.

(** C5 as amended: a field whose type is a definition without components
    and without allowed values gets 0 when the base type is exactly the
    lowercase word number, true when it is exactly boolean, and otherwise the
    string example_ followed by the lowercased base type; the base type is the
    dmn:typeRef child when truthy, else the _typeRef attribute, and the
    word string when both are absent (example_string). *)
Theorem primitive_field_example
  (n : nat) (catalog : list itemDefinition) (name typeRef : option string)
  (sub : option (list component)) (def : itemDefinition) :
  truthy typeRef = true ->
  find_def catalog typeRef = Some def ->
  has_items def = false ->
  av_truthy (def_allowedValues def) = false ->
  exists v,
    generateExampleValue (S n) (Some [Component name typeRef sub])
      (Some catalog)
    = Ok (VObj [(key name, v)])
    /\ (base_type def = "number" -> v = VNum 0)
    /\ (base_type def = "boolean" -> v = VBool true)
    /\ (base_type def <> "number" -> base_type def <> "boolean" ->
        v = VStr ("example_" ++ toLowerCase (base_type def)))
    /\ (truthy (def_typeRef_elem def) = false ->
        def_typeRef_attr def = None -> v = VStr "example_string").
Proof.
  intros Htruthy Hfind Hitems Hav.
  exists (example_of_type (base_type def)). split.
  - rewrite (generateExampleValue_leaf n catalog name typeRef sub def)
      by assumption.
    now rewrite Hav.
  - unfold example_of_type. repeat split.
    + now intros ->.
    + now intros ->.
    + intros Hn Hb. apply String.eqb_neq in Hn, Hb. now rewrite Hn, Hb.
    + intros Helem Hattr. unfold base_type, Js.or.
      now rewrite Helem, Hattr.
Qed.

Lemma primitive_field_example_witness :
  exists v,
    generateExampleValue 1
      (Some [Component (Some "age") (Some "Number") (Some [])])
      (Some [Examples.person; Examples.number])
    = Ok (VObj [("age", v)])
    /\ (base_type Examples.number = "number" -> v = VNum 0)
    /\ (base_type Examples.number = "boolean" -> v = VBool true)
    /\ (base_type Examples.number <> "number" ->
        base_type Examples.number <> "boolean" ->
        v = VStr ("example_" ++ toLowerCase (base_type Examples.number)))
    /\ (truthy (def_typeRef_elem Examples.number) = false ->
        def_typeRef_attr Examples.number = None -> v = VStr "example_string").
Proof.
  apply (primitive_field_example 0 [Examples.person; Examples.number]
           (Some "age") (Some "Number") (Some []) Examples.number);
    reflexivity.
Defined.

(** When dmn:allowedValues is an array whose first entry carries a text
    with at least one quoted literal (one or more characters other than a
    double quote between two double quotes), the text has a leftmost quoted
    literal, and the example of a field of that component-less type is that
    literal without its quotes, unchanged. *)
Theorem allowed_values_first_literal
  (n : nat) (catalog : list itemDefinition) (name typeRef : option string)
  (sub : option (list component)) (def : itemDefinition)
  (text : string) (more : list allowedValues) :
  truthy typeRef = true ->
  find_def catalog typeRef = Some def ->
  has_items def = false ->
  def_allowedValues def = Some (AvArray (AvObject (Some text) :: more)) ->
  (exists before lit after, Pattern.occurs text before lit after) ->
  (exists before lit after, Pattern.leftmost text before lit after)
  /\ forall before lit after,
       Pattern.leftmost text before lit after ->
       generateExampleValue (S n) (Some [Component name typeRef sub])
         (Some catalog)
       = Ok (VObj [(key name, VStr lit)]).
Proof.
  intros Htruthy Hfind Hitems Hav Hsome. split.
  - destruct (PatternFacts.first_match text Hsome) as (a & lit & b & Hl & _).
    eauto.
  - intros before lit after Hleft.
    rewrite (generateExampleValue_leaf n catalog name typeRef sub def)
      by assumption.
    unfold first_allowed_value. rewrite Hav.
    cbn [av_truthy av_first av_text hd_error].
    rewrite (PatternFacts.leftmost_match _ _ _ _ Hleft).
    destruct Hleft as [[_ [Hne _]] _]. unfold or_string.
    apply String.eqb_neq in Hne. now rewrite Hne.
Qed.

(** The Status scenario with the element decoded as an array: allowed values
    Active and Inactive, each between double quotes, give the example
    Active. *)
Lemma allowed_values_first_literal_witness :
  generateExampleValue 1
    (Some [Component (Some "status") (Some "Status") (Some [])])
    (Some [Examples.task; Examples.status Examples.active_inactive])
  = Ok (VObj [("status", VStr "Active")]).
Proof.
  destruct (allowed_values_first_literal 0
              [Examples.task; Examples.status Examples.active_inactive]
              (Some "status") (Some "Status") (Some [])
              (Examples.status Examples.active_inactive)
              Examples.active_inactive [] eq_refl eq_refl eq_refl eq_refl)
    as [_ Hfirst].
  - exists "", "Active", (" " ++ Pattern.quoted "Inactive").
    split; [reflexivity | split; [discriminate |]].
    simpl. intros H. repeat (destruct H as [H | H]; [discriminate H |]).
    exact H.
  - apply (Hfirst "" "Active" (" " ++ Pattern.quoted "Inactive")).
    split; [| intros; simpl; lia].
    split; [reflexivity | split; [discriminate |]].
    simpl. intros H. repeat (destruct H as [H | H]; [discriminate H |]).
    exact H.
Defined.

(** C6 (the code departs from the claim): a type Status with one
    dmn:allowedValues element whose text is Active and Inactive, each
    between double quotes, does not synthesize to Active: the parser decodes
    the single element as an object, line 111 reads entry 0 of it, which is
    undefined, and the field status gets the fallback string. *)
Theorem single_allowed_values_element_loses_literal (n : nat) :
  handleFileUpload (S (S n)) MoreExamples.single_status_doc
  = Ok (VObj [("Task", VObj [("status", VStr "string")])])
  /\ allowed_values_text (AvObject (Some Examples.active_inactive))
     = Some (Pattern.quoted "Active" ++ " " ++ Pattern.quoted "Inactive").
Proof.
  split; [| reflexivity].
  apply (handleFileUpload_more_fuel 2); [| discriminate | lia].
  vm_compute. reflexivity.
Qed.




(** C8 (the code departs from the claim): without any dmn:itemDefinition in
    the document the catalog is undefined, and looking a name up in it throws
    a TypeError instead of reporting not-found: the handler on a document
    with one input of the built-in type number ends in the catch branch,
    with the validation error Processing error and no schema. *)
Theorem lookup_without_definitions_throws (n : nat) (typeRef : option string) :
  findItemDefinition (S n) None typeRef = Throw undefined_find
  /\ handleFileUpload (S n) Examples.builtin_doc = Throw undefined_find
  /\ onload (S n) Examples.initial Examples.builtin_doc
     = Ok {| jsonSchema := None;
             modalOpen := false;
             validationErrors :=
               [("Processing error", message undefined_find)] |}.
Proof.
  assert (Hrun : handleFileUpload (S n) Examples.builtin_doc
                 = Throw undefined_find) by reflexivity.
  split; [reflexivity | split; [exact Hrun |]].
  unfold onload. now rewrite Hrun.
Qed.

(** Fuel independence: two runs of the handler on the same decoded document
    that both finish agree, whatever fuel each had and whatever state the component
    was in before: the same outcome of the extraction and the same
    validation errors, and when the extraction returned a schema both runs
    store that schema. *)
Theorem extraction_deterministic
  (parsed : document) (n m : nat) (st1 st2 after1 after2 : AppState) :
  onload n st1 parsed = Ok after1 ->
  onload m st2 parsed = Ok after2 ->
  handleFileUpload n parsed = handleFileUpload m parsed
  /\ validationErrors after1 = validationErrors after2
  /\ forall schema,
       handleFileUpload n parsed = Ok schema ->
       jsonSchema after1 = Some schema /\ jsonSchema after2 = Some schema.
Proof.
  intros Hrun1 Hrun2. unfold onload in Hrun1, Hrun2.
  assert (Hsame : handleFileUpload n parsed = handleFileUpload m parsed).
  { apply (finished_runs_agree (fun fuel => handleFileUpload fuel parsed)).
    - intros a b Hle. now apply handleFileUpload_mono.
    - intros Hout. now rewrite Hout in Hrun1.
    - intros Hout. now rewrite Hout in Hrun2. }
  split; [exact Hsame |]. rewrite <- Hsame in Hrun2. clear Hsame.
  destruct (handleFileUpload n parsed) as [schema | e |];
    inversion Hrun1; inversion Hrun2; subst; simpl.
  - split; [reflexivity |].
    intros s Hs. inversion Hs; subst s. now split.
  - split; [reflexivity |].
    intros s Hs. discriminate Hs.
Qed.

Lemma extraction_deterministic_witness :
  handleFileUpload 2 Examples.applicant_doc
  = handleFileUpload 5 Examples.applicant_doc.
Proof.
  pose (schema := VObj [("Applicant",
                         VObj [("name", VStr "example_string");
                               ("age", VNum 0)])]).
  exact (proj1 (extraction_deterministic Examples.applicant_doc 2 5
                  Examples.initial
                  {| jsonSchema := Some VNull;
                     modalOpen := true;
                     validationErrors := [("Invalid file type", "")] |}
                  {| jsonSchema := Some schema;
                     modalOpen := true;
                     validationErrors := [] |}
                  {| jsonSchema := Some schema;
                     modalOpen := true;
                     validationErrors := [] |}
                  eq_refl eq_refl)).
Defined.

(** C10: an input whose typeRef resolves to a definition without item
    components gets the empty mapping: resolution returns the empty list of
    components, synthesis folds it into the empty mapping, and whenever the
    handler returns a schema, the entry of that input (when no later input
    has the same name) is the empty mapping. *)
Theorem componentless_input_is_empty_mapping
  (n : nat) (parsed : document) (defs : definitions)
  (catalog : list itemDefinition) (pre post : list inputData)
  (input : inputData) (v : variable) (def : itemDefinition) :
  dmn_definitions parsed = Some defs ->
  dmn_itemDefinition defs = Some catalog ->
  or_empty (dmn_inputData defs) = (pre ++ input :: post)%list ->
  (forall later, In later post ->
     key (in_name later) <> key (in_name input)) ->
  in_variable input = Some v ->
  find_def catalog (var_typeRef v) = Some def ->
  has_items def = false ->
  findItemDefinition (S n) (Some catalog) (var_typeRef v) = Ok (Some [])
  /\ generateExampleValue (S n) (Some []) (Some catalog) = Ok (VObj [])
  /\ forall schema,
       handleFileUpload (S n) parsed = Ok schema ->
       exists props,
         schema = VObj props
         /\ get props (key (in_name input)) = Some (VObj []).
Proof.
  intros Hdefs Hcatalog Hinputs Hlast Hvar Hfind Hitems.
  assert (Hleaf : or_empty (def_itemComponent def) = []).
  { unfold has_items in Hitems.
    destruct (def_itemComponent def) as [[| c cs] |];
      [reflexivity | discriminate | reflexivity]. }
  assert (Hresolve : findItemDefinition (S n) (Some catalog) (var_typeRef v)
                     = Ok (Some [])).
  { rewrite findItemDefinition_S, Hfind, Hleaf. reflexivity. }
  split; [exact Hresolve | split; [reflexivity |]].
  intros schema Hrun.
  destruct (handleFileUpload_entry (S n) parsed defs pre input post schema
              Hdefs Hinputs Hlast Hrun)
    as (v' & components & example & props & Hv & Hfind' & Hgen & -> & Hget).
  rewrite Hvar in Hv. inversion Hv; subst v'.
  rewrite Hcatalog, Hresolve in Hfind'. inversion Hfind'; subst components.
  rewrite Hcatalog in Hgen. cbn in Hgen. inversion Hgen; subst example.
  now exists props.
Qed.

Lemma componentless_input_is_empty_mapping_witness :
  handleFileUpload 1 Examples.status_input_doc
  = Ok (VObj [("State", VObj [])])
  /\ exists props,
       VObj [("State", VObj [])] = VObj props
       /\ get props "State" = Some (VObj []).
Proof.
  split; [reflexivity |].
  apply (componentless_input_is_empty_mapping 0 Examples.status_input_doc
           {| dmn_inputData :=
                Some [Examples.input "State" (Some "Status")];
              dmn_itemDefinition :=
                Some [Examples.status Examples.active_inactive] |}
           [Examples.status Examples.active_inactive] []
           [] (Examples.input "State" (Some "Status"))
           {| var_typeRef := Some "Status" |}
           (Examples.status Examples.active_inactive));
    try reflexivity.
  intros later [].
Defined.

(** * Further properties of the engine and of the upload handler *)

(** ** Lists of fallible steps *)

Lemma mapM_not_Throw {A B} (f : A -> result B) (l : list A) :
  (forall a e, In a l -> f a <> Throw e) -> forall e, mapM f l <> Throw e.
Proof.
  induction l as [| a l IH]; intros Hall e; simpl; [discriminate |].
  pose proof (Hall a) as Ha. destruct (f a) as [b | e' |]; simpl.
  - destruct (mapM f l) as [bs | e' |] eqn:Hrest; simpl; try discriminate.
    exfalso. apply (IH (fun x e0 Hin => Hall x e0 (or_intror Hin)) e').
    reflexivity.
  - exfalso. apply (Ha e'); [now left | reflexivity].
  - discriminate.
Qed.

Lemma reduceM_not_Throw {A B} (f : B -> A -> result B) (l : list A) :
  (forall acc a e, In a l -> f acc a <> Throw e) ->
  forall init e, reduceM f l init <> Throw e.
Proof.
  induction l as [| a l IH]; intros Hall init e; simpl; [discriminate |].
  pose proof (Hall init a) as Ha. destruct (f init a) as [acc | e' |]; simpl.
  - apply IH. intros acc' b e0 Hin. apply Hall. now right.
  - exfalso. apply (Ha e'); [now left | reflexivity].
  - discriminate.
Qed.

Lemma mapM_OutOfFuel {A B} (f : A -> result B) (l : list A) (c : A) :
  In c l -> f c = OutOfFuel -> (forall a e, f a <> Throw e) ->
  mapM f l = OutOfFuel.
Proof.
  intros Hin Hc Hsafe. induction l as [| a l IH]; [contradiction |].
  simpl. destruct Hin as [-> | Hin].
  - now rewrite Hc.
  - pose proof (Hsafe a) as Ha. destruct (f a) as [b | e |]; simpl.
    + now rewrite (IH Hin).
    + now destruct (Ha e).
    + reflexivity.
Qed.

Lemma reduceM_OutOfFuel {A B} (f : B -> A -> result B) (l : list A) (c : A) :
  In c l -> (forall acc, f acc c = OutOfFuel) ->
  (forall acc a e, In a l -> f acc a <> Throw e) ->
  forall init, reduceM f l init = OutOfFuel.
Proof.
  intros Hin Hc. induction l as [| a l IH]; [contradiction |].
  intros Hsafe init. simpl. destruct Hin as [-> | Hin].
  - now rewrite Hc.
  - pose proof (Hsafe init a) as Ha. destruct (f init a) as [b | e |]; simpl.
    + apply IH; [exact Hin |]. intros acc x e Hx. apply Hsafe. now right.
    + now destruct (Ha e (or_introl eq_refl)).
    + reflexivity.
Qed.

Lemma mapM_map_eq {A B C} (f : A -> result B) (g : B -> C) (h : A -> C)
  (l : list A) bs :
  (forall a b, f a = Ok b -> g b = h a) ->
  mapM f l = Ok bs -> map g bs = map h l.
Proof.
  intros Hfg. revert bs. induction l as [| a l IH]; simpl; intros bs Hrun.
  - now inversion Hrun.
  - apply bind_Ok in Hrun. destruct Hrun as (b & Hb & Hrun).
    apply bind_Ok in Hrun. destruct Hrun as (bs' & Hbs & Hrun).
    inversion Hrun; subst bs. simpl. now rewrite (Hfg _ _ Hb), (IH _ Hbs).
Qed.

Lemma reduceM_Throw {A B} (f : B -> A -> result B) (l : list A) init e :
  reduceM f l init = Throw e ->
  exists acc a, In a l /\ f acc a = Throw e.
Proof.
  revert init. induction l as [| a l IH]; simpl; intros init Hrun;
    [discriminate |].
  destruct (f init a) as [acc | e' |] eqn:Ha; simpl in Hrun.
  - destruct (IH _ Hrun) as (acc' & b & Hin & Hb).
    exists acc', b. split; [now right | assumption].
  - inversion Hrun; subst e'. exists init, a. split; [now left | assumption].
  - discriminate.
Qed.

(** ** Resolution *)

Lemma findItemDefinition_not_Throw fuel catalog typeRef e :
  findItemDefinition fuel (Some catalog) typeRef <> Throw e.
Proof.
  revert typeRef e. induction fuel as [| fuel IH]; intros typeRef e;
    [discriminate |].
  rewrite findItemDefinition_S.
  destruct (find_def catalog typeRef) as [d |]; [| discriminate].
  match goal with
  | |- context [mapM ?f ?l] =>
      assert (Hsafe : forall e0, mapM f l <> Throw e0)
  end.
  { apply mapM_not_Throw. intros c e0 _.
    destruct (truthy (ic_typeRef c)); [| discriminate].
    pose proof (IH (ic_typeRef c)) as Hc.
    destruct (findItemDefinition fuel (Some catalog) (ic_typeRef c))
      as [sub | e1 |]; simpl; try discriminate.
    now destruct (Hc e1). }
  match goal with
  | |- context [mapM ?f ?l] =>
      destruct (mapM f l) as [cs | e' |]; simpl; try discriminate
  end.
  now destruct (Hsafe e').
Qed.

(** X2: what resolution returns mirrors the first definition of that name:
    null when the catalog has none, and otherwise one component object per
    dmn:itemComponent, with the same names and typeRefs in the same order;
    a component without a usable typeRef carries no components, and the
    components of any other are what resolution returns for its typeRef. *)
Theorem resolution_mirrors_definition
  (fuel : nat) (catalog : list itemDefinition) (typeRef : option string)
  (r : option (list component)) :
  findItemDefinition fuel (Some catalog) typeRef = Ok r ->
  match find_def catalog typeRef with
  | None => r = None
  | Some d =>
      exists comps,
        r = Some comps
        /\ map c_name comps = map ic_name (or_empty (def_itemComponent d))
        /\ map c_typeRef comps
           = map ic_typeRef (or_empty (def_itemComponent d))
        /\ forall c, In c comps ->
             if truthy (c_typeRef c)
             then exists fuel',
                    findItemDefinition fuel' (Some catalog) (c_typeRef c)
                    = Ok (c_components c)
             else c_components c = None
  end.
Proof.
  destruct fuel as [| fuel]; [discriminate |].
  rewrite findItemDefinition_S.
  destruct (find_def catalog typeRef) as [d |];
    [| intros H; now inversion H].
  intros Hrun. apply bind_Ok in Hrun. destruct Hrun as (cs & Hcs & Hrun).
  inversion Hrun; subst r. exists cs. split; [reflexivity |].
  split; [| split].
  - apply (mapM_map_eq _ c_name ic_name _ _) in Hcs; [exact Hcs |].
    intros a b Hb. apply bind_Ok in Hb. destruct Hb as (sub & _ & Hb).
    now inversion Hb.
  - apply (mapM_map_eq _ c_typeRef ic_typeRef _ _) in Hcs; [exact Hcs |].
    intros a b Hb. apply bind_Ok in Hb. destruct Hb as (sub & _ & Hb).
    now inversion Hb.
  - intros c Hin. destruct (mapM_In _ _ _ Hcs c Hin) as (ic & _ & Hc).
    apply bind_Ok in Hc. destruct Hc as (sub & Hsub & Hc).
    inversion Hc; subst c. cbn [c_typeRef c_components].
    destruct (truthy (ic_typeRef ic)).
    + now exists fuel.
    + now inversion Hsub.
Qed.

Lemma resolution_mirrors_definition_witness :
  exists comps,
    Some [Component (Some "name") None None;
          Component (Some "age") (Some "Number") (Some [])] = Some comps
    /\ map c_name comps
       = map ic_name (or_empty (def_itemComponent Examples.person))
    /\ map c_typeRef comps
       = map ic_typeRef (or_empty (def_itemComponent Examples.person))
    /\ forall c, In c comps ->
         if truthy (c_typeRef c)
         then exists fuel',
                findItemDefinition fuel'
                  (Some [Examples.person; Examples.number]) (c_typeRef c)
                = Ok (c_components c)
         else c_components c = None.
Proof.
  exact (resolution_mirrors_definition 2 [Examples.person; Examples.number]
           (Some "Person")
           (Some [Component (Some "name") None None;
                  Component (Some "age") (Some "Number") (Some [])])
           eq_refl).
Defined.

(** X3: an input without a typeRef attribute is looked up under the name
    undefined: resolution returns null for it exactly when every definition
    of the catalog has a name (a definition without a name matches it). *)
Theorem absent_typeRef_matches_unnamed
  (n : nat) (catalog : list itemDefinition) :
  findItemDefinition (S n) (Some catalog) None = Ok None
  <-> forall d, In d catalog -> def_name d <> None.
Proof.
  rewrite findItemDefinition_S. split.
  - intros Hrun d Hin Hname.
    destruct (find_def catalog None) as [d' |] eqn:Hfind.
    + destruct (mapM _ _); discriminate.
    + unfold find_def in Hfind.
      pose proof (find_none _ _ Hfind d Hin) as Hd. cbv beta in Hd.
      rewrite Hname in Hd. discriminate.
  - intros Hnamed. destruct (find_def catalog None) as [d |] eqn:Hfind;
      [| reflexivity].
    unfold find_def in Hfind. apply find_some in Hfind.
    destruct Hfind as [Hin Heq]. apply strict_eq_true in Heq.
    now destruct (Hnamed d Hin).
Qed.

Lemma cyclic_needs_more_fuel catalog P :
  cyclic catalog P ->
  forall fuel typeRef, P typeRef ->
    findItemDefinition fuel (Some catalog) typeRef = OutOfFuel.
Proof.
  intros Hcyclic. induction fuel as [| fuel IH]; intros typeRef Hin;
    [reflexivity |].
  rewrite findItemDefinition_S.
  destruct (Hcyclic typeRef Hin) as (d & c & -> & Hc & Ht & Hnext).
  match goal with
  | |- context [mapM ?f ?l] => rewrite (mapM_OutOfFuel f l c Hc)
  end; [reflexivity | |].
  - now rewrite Ht, (IH _ Hnext).
  - intros a e. destruct (truthy (ic_typeRef a)); [| discriminate].
    pose proof (findItemDefinition_not_Throw fuel catalog (ic_typeRef a))
      as Hsafe.
    destruct (findItemDefinition fuel (Some catalog) (ic_typeRef a))
      as [sub | e1 |]; simpl; try discriminate.
    now destruct (Hsafe e1).
Qed.

(** X4: when the typeRef of an input lies on a cycle of the catalog (it
    belongs to a set of type references each of which resolves to a
    definition with a component typed in the set again), resolution of it
    finishes with no amount of fuel; and if every input of the document
    carries a dmn:variable, neither does the handler. *)
Theorem cyclic_reference_diverges
  (catalog : list itemDefinition) (P : option string -> Prop)
  (parsed : document) (defs : definitions) (input : inputData)
  (v : variable) :
  cyclic catalog P ->
  dmn_definitions parsed = Some defs ->
  dmn_itemDefinition defs = Some catalog ->
  In input (or_empty (dmn_inputData defs)) ->
  in_variable input = Some v ->
  P (var_typeRef v) ->
  (forall i, In i (or_empty (dmn_inputData defs)) -> in_variable i <> None) ->
  diverges (fun fuel =>
              findItemDefinition fuel (Some catalog) (var_typeRef v))
  /\ diverges (fun fuel => handleFileUpload fuel parsed).
Proof.
  intros Hcyclic Hdefs Hcatalog Hin Hv Hon Hvars. split; intros fuel.
  - now apply (cyclic_needs_more_fuel catalog P).
  - unfold handleFileUpload. rewrite Hdefs.
    unfold inputDataMap. rewrite Hcatalog.
    match goal with
    | |- context [reduceM ?f ?l ?i] =>
        rewrite (reduceM_OutOfFuel f l input Hin)
    end; [reflexivity | |].
    + intros acc. rewrite Hv.
      now rewrite (cyclic_needs_more_fuel catalog P Hcyclic fuel _ Hon).
    + intros acc i e Hi. specialize (Hvars i Hi).
      destruct (in_variable i) as [w |]; [| contradiction].
      pose proof (findItemDefinition_not_Throw fuel catalog (var_typeRef w))
        as Hsafe.
      destruct (findItemDefinition fuel (Some catalog) (var_typeRef w))
        as [cs | e1 |]; simpl; try discriminate.
      now destruct (Hsafe e1).
Qed.

Lemma cyclic_reference_diverges_witness :
  diverges (fun fuel =>
              findItemDefinition fuel
                (Some [MoreExamples.left; MoreExamples.right]) (Some "Left"))
  /\ diverges (fun fuel => handleFileUpload fuel MoreExamples.mutual_doc).
Proof.
  apply (cyclic_reference_diverges
           [MoreExamples.left; MoreExamples.right]
           (fun t => t = Some "Left" \/ t = Some "Right")
           MoreExamples.mutual_doc
           {| dmn_inputData := Some [Examples.input "Pair" (Some "Left")];
              dmn_itemDefinition :=
                Some [MoreExamples.left; MoreExamples.right] |}
           (Examples.input "Pair" (Some "Left"))
           {| var_typeRef := Some "Left" |});
    try reflexivity.
  - intros t [-> | ->].
    + exists MoreExamples.left, (Examples.field "right" (Some "Right")).
      repeat split; [now left | now right].
    + exists MoreExamples.right, (Examples.field "left" (Some "Left")).
      repeat split; [now left | now left].
  - now left.
  - now left.
  - intros i [<- | []]. discriminate.
Defined.

(** ** Synthesis, field by field *)

Lemma reduceM_ext {A B} (f g : B -> A -> result B) (l : list A) :
  (forall acc a, In a l -> f acc a = g acc a) ->
  forall init, reduceM f l init = reduceM g l init.
Proof.
  induction l as [| a l IH]; intros Hfg init; simpl; [reflexivity |].
  rewrite (Hfg init a (or_introl eq_refl)).
  destruct (g init a); simpl; try reflexivity.
  apply IH. intros acc b Hin. apply Hfg. now right.
Qed.

Lemma reduceM_map {A B C} (f : B -> A -> result B) (g : C -> A)
  (l : list C) init :
  reduceM f (map g l) init = reduceM (fun acc c => f acc (g c)) l init.
Proof.
  revert init. induction l as [| c l IH]; intros init; simpl; [reflexivity |].
  destruct (f init (g c)); simpl; auto.
Qed.

(** [generateExampleValue] sets, for each component in turn, the property
    named after the component to the component's [field_example]. *)
Lemma generateExampleValue_fields fuel catalog comps :
  generateExampleValue (S fuel) (Some comps) (Some catalog)
  = (acc <- reduceM (fun acc c =>
                       v <- field_example fuel catalog c ;;
                       Ok (set acc (key (c_name c)) v)) comps [] ;;
     Ok (VObj acc)).
Proof.
  rewrite generateExampleValue_S. f_equal. apply reduceM_ext.
  intros acc c _. unfold field_example. cbv zeta.
  destruct (if truthy (c_typeRef c)
            then find_def catalog (c_typeRef c) else None) as [d |].
  - destruct (negb (has_items d) && av_truthy (def_allowedValues d));
      [reflexivity |].
    destruct (has_items d); [| reflexivity].
    match goal with
    | |- context [reduceM ?f ?l ?i] => destruct (reduceM f l i)
    end; reflexivity.
  - destruct (truthy (c_typeRef c)); reflexivity.
Qed.

Lemma generateExampleValue_single fuel catalog c :
  generateExampleValue (S fuel) (Some [c]) (Some catalog)
  = (v <- field_example fuel catalog c ;;
     Ok (VObj [(key (c_name c), v)])).
Proof.
  rewrite generateExampleValue_fields. cbn [reduceM].
  destruct (field_example fuel catalog c); reflexivity.
Qed.

Section ReduceKeys.
Context {A V : Type}.
Variable step : list (string * V) -> A -> result (list (string * V)).
Variable key_of : A -> string.
Hypothesis step_sets :
  forall acc a acc', step acc a = Ok acc' ->
  exists v, acc' = set acc (key_of a) v.

Lemma reduceM_keys l acc m :
  reduceM step l acc = Ok m ->
  forall k, In k (keys m) <-> In k (keys acc) \/ In k (map key_of l).
Proof.
  revert acc. induction l as [| a l IH]; simpl; intros acc Hrun k.
  - inversion Hrun; subst. intuition.
  - apply bind_Ok in Hrun. destruct Hrun as (acc' & Hstep & Hrest).
    rewrite (IH _ Hrest). destruct (step_sets _ _ _ Hstep) as [v ->].
    rewrite in_keys_set. intuition.
Qed.

End ReduceKeys.

Lemma field_step_sets fuel catalog acc c acc' :
  (v <- field_example fuel catalog c ;; Ok (set acc (key (c_name c)) v))
  = Ok acc' ->
  exists v, acc' = set acc (key (c_name c)) v.
Proof.
  intros H. apply bind_Ok in H. destruct H as (v & _ & H).
  inversion H. eauto.
Qed.

Lemma generateExampleValue_default fuel components defs :
  generateExampleValue fuel components defs
  = generateExampleValue fuel components (Some (or_empty defs)).
Proof. destruct fuel, defs; reflexivity. Qed.

(** X5: synthesis returns null exactly for absent components; for a list
    of components none of which is named __proto__ (a name that assignment
    does not turn into a property) it returns a mapping whose keys are
    exactly the names of the components (the name undefined for a component
    without one), each once: no field is left out and no other key appears,
    whether or not the field's type resolves. *)
Theorem synthesis_keys
  (fuel : nat) (components : option (list component))
  (defs : option (list itemDefinition)) (v : value) :
  (forall c, In c (or_empty components) -> key (c_name c) <> "__proto__") ->
  generateExampleValue fuel components defs = Ok v ->
  match components with
  | None => v = VNull
  | Some comps =>
      exists props,
        v = VObj props
        /\ NoDup (keys props)
        /\ forall k,
             In k (keys props) <-> In k (map (fun c => key (c_name c)) comps)
  end.
Proof.
  intros _. rewrite generateExampleValue_default.
  destruct fuel as [| fuel]; [discriminate |].
  destruct components as [comps |]; [| intros H; now inversion H].
  rewrite generateExampleValue_fields. intros Hrun.
  apply bind_Ok in Hrun. destruct Hrun as (props & Hfold & Hrun).
  inversion Hrun; subst v. exists props. split; [reflexivity |]. split.
  - exact (reduceM_NoDup _ _ (field_step_sets fuel (or_empty defs))
             _ _ _ Hfold (NoDup_nil _)).
  - intros k.
    rewrite (reduceM_keys _ _ (field_step_sets fuel (or_empty defs))
               _ _ _ Hfold k).
    simpl. intuition.
Qed.

Lemma synthesis_keys_witness :
  exists props,
    VObj [("name", VStr "example_string"); ("age", VNum 0)] = VObj props
    /\ NoDup (keys props)
    /\ forall k,
         In k (keys props)
         <-> In k (map (fun c => key (c_name c))
                     [Component (Some "name") None None;
                      Component (Some "age") (Some "Number") (Some [])]).
Proof.
  apply (synthesis_keys 1
           (Some [Component (Some "name") None None;
                  Component (Some "age") (Some "Number") (Some [])])
           (Some [Examples.person; Examples.number])
           (VObj [("name", VStr "example_string"); ("age", VNum 0)]));
    [| reflexivity].
  intros c [<- | [<- | []]]; discriminate.
Defined.

(** X6: synthesis works field by field: in the mapping it returns for a
    list of components, the value under the name of a component that no
    later component shadows is the value that synthesis of that component
    alone puts under that name. *)
Theorem synthesis_is_fieldwise
  (n : nat) (catalog : list itemDefinition)
  (pre post : list component) (c : component) (v : value) :
  generateExampleValue (S n) (Some (pre ++ c :: post)%list) (Some catalog)
  = Ok v ->
  (forall later, In later post ->
     key (c_name later) <> key (c_name c)) ->
  exists props x,
    v = VObj props
    /\ generateExampleValue (S n) (Some [c]) (Some catalog)
       = Ok (VObj [(key (c_name c), x)])
    /\ get props (key (c_name c)) = Some x.
Proof.
  rewrite generateExampleValue_fields, generateExampleValue_single.
  intros Hrun Hlast.
  apply bind_Ok in Hrun. destruct Hrun as (props & Hfold & Hrun).
  inversion Hrun; subst v.
  destruct (reduceM_split _ _ _ _ _ _ Hfold)
    as (acc & acc' & _ & Hstep & Hpost).
  apply bind_Ok in Hstep. destruct Hstep as (x & Hx & Hstep).
  inversion Hstep; subst acc'.
  exists props, x. split; [reflexivity |]. split.
  - now rewrite Hx.
  - rewrite (reduceM_get_other _ _ (field_step_sets n catalog)
               _ _ _ (key (c_name c)) Hpost Hlast).
    apply get_set_same.
Qed.

Lemma synthesis_is_fieldwise_witness :
  exists props x,
    VObj [("name", VStr "example_string"); ("age", VNum 0)] = VObj props
    /\ generateExampleValue 1
         (Some [Component (Some "age") (Some "Number") (Some [])])
         (Some [Examples.person; Examples.number])
       = Ok (VObj [("age", x)])
    /\ get props "age" = Some x.
Proof.
  apply (synthesis_is_fieldwise 0 [Examples.person; Examples.number]
           [Component (Some "name") None None] []
           (Component (Some "age") (Some "Number") (Some []))
           (VObj [("name", VStr "example_string"); ("age", VNum 0)])
           eq_refl).
  intros later [].
Defined.

Lemma field_example_bare fuel catalog c :
  settled catalog c ->
  field_example fuel catalog (bare c) = field_example fuel catalog c.
Proof.
  intros Hsettled. destruct c as [name typeRef sub].
  unfold field_example, bare. cbn [c_typeRef c_name c_components].
  destruct (truthy typeRef) eqn:Ht; [| reflexivity].
  destruct (find_def catalog typeRef) as [d |] eqn:Hd; [reflexivity |].
  pose proof (Hsettled Ht Hd) as Hsub. cbn [c_components] in Hsub.
  now subst sub.
Qed.

(** X7: for component objects as resolution builds them, synthesis reads
    only their names and typeRefs: dropping every resolved sub-tree leaves
    the result unchanged (the types of typed fields are looked up in the
    catalog again). *)
Theorem synthesis_ignores_resolved_subtrees
  (fuel : nat) (catalog : list itemDefinition) (comps : list component) :
  (forall c, In c comps -> settled catalog c) ->
  generateExampleValue fuel (Some (map bare comps)) (Some catalog)
  = generateExampleValue fuel (Some comps) (Some catalog).
Proof.
  intros Hsettled. destruct fuel as [| fuel]; [reflexivity |].
  rewrite !generateExampleValue_fields, reduceM_map. f_equal.
  apply reduceM_ext. intros acc c Hin.
  rewrite (field_example_bare fuel catalog c (Hsettled c Hin)).
  now destruct c.
Qed.

Lemma synthesis_ignores_resolved_subtrees_witness :
  generateExampleValue 2
    (Some (map bare [Component (Some "name") None None;
                     Component (Some "age") (Some "Number") (Some [])]))
    (Some [Examples.person; Examples.number])
  = generateExampleValue 2
      (Some [Component (Some "name") None None;
             Component (Some "age") (Some "Number") (Some [])])
      (Some [Examples.person; Examples.number]).
Proof.
  apply (synthesis_ignores_resolved_subtrees 2
           [Examples.person; Examples.number]
           [Component (Some "name") None None;
            Component (Some "age") (Some "Number") (Some [])]).
  intros c [<- | [<- | []]]; intros Ht Hd; [discriminate Ht | discriminate Hd].
Defined.

(** X8: allowed values are parsed only when dmn:allowedValues is an array:
    for a field whose type is a definition without components whose
    dmn:allowedValues is a single element (an object, whatever its text) or
    a non-empty text, the value is the lowercased _typeRef attribute of the
    definition, or the string string when the attribute is absent. *)
Theorem single_allowed_values_is_not_parsed
  (n : nat) (catalog : list itemDefinition) (name typeRef : option string)
  (sub : option (list component)) (def : itemDefinition) :
  truthy typeRef = true ->
  find_def catalog typeRef = Some def ->
  has_items def = false ->
  (exists text, def_allowedValues def = Some (AvObject text))
  \/ (exists s, s <> "" /\ def_allowedValues def = Some (AvString s)) ->
  generateExampleValue (S n) (Some [Component name typeRef sub])
    (Some catalog)
  = Ok (VObj [(key name,
               VStr (toLowerCase (nullish (def_typeRef_attr def) "string")))]).
Proof.
  intros Htruthy Hfind Hitems Hav.
  rewrite (generateExampleValue_leaf n catalog name typeRef sub def)
    by assumption.
  unfold first_allowed_value.
  destruct Hav as [[text ->] | (s & Hs & ->)]; [reflexivity |].
  cbn [av_truthy]. apply String.eqb_neq in Hs. rewrite Hs.
  destruct s; reflexivity.
Qed.

Lemma single_allowed_values_is_not_parsed_witness :
  generateExampleValue 1
    (Some [Component (Some "status") (Some "Status") (Some [])])
    (Some [Examples.primitive "Status" None
             (Some (AvObject (Some Examples.active_inactive)))])
  = Ok (VObj [("status", VStr "string")]).
Proof.
  apply (single_allowed_values_is_not_parsed 0
           [Examples.primitive "Status" None
              (Some (AvObject (Some Examples.active_inactive)))]
           (Some "status") (Some "Status") (Some [])
           (Examples.primitive "Status" None
              (Some (AvObject (Some Examples.active_inactive))))
           eq_refl eq_refl eq_refl).
  left. now exists (Some Examples.active_inactive).
Defined.

(** ** What the allowed-values pattern extracts *)

Module PatternInvariants.
Import Pattern PatternFacts.

Lemma scan_matches fuel s m :
  In m (scan fuel s) ->
  exists a lit b,
    occurs_chars s a lit b /\ m = (dquote :: lit ++ [dquote])%list.
Proof.
  revert s. induction fuel as [| fuel IH]; intros s Hin; [contradiction |].
  destruct s as [| c rest]; [contradiction |].
  rewrite scan_cons in Hin.
  destruct (match_at (c :: rest)) as [[m0 after] |] eqn:Hm.
  - apply match_at_Some in Hm. destruct Hm as (lit0 & Hocc0 & ->).
    destruct Hin as [<- | Hin];
      [exists [], lit0, after; split; [exact Hocc0 | reflexivity] |].
    destruct (IH _ Hin) as (a & lit & b & [-> Hlit] & ->).
    exists ((dquote :: lit0 ++ [dquote]) ++ a)%list, lit, b.
    split; [| reflexivity]. split; [| exact Hlit].
    destruct Hocc0 as [-> _]. simpl. now rewrite <- !app_assoc.
  - destruct (IH _ Hin) as (a & lit & b & [-> Hlit] & ->).
    exists (c :: a), lit, b.
    split; [split; [reflexivity | exact Hlit] | reflexivity].
Qed.

(** X9: every value that line 111 extracts from an allowed-values text
    stands in the text between two double quotes, is not empty and holds no
    double quote; so the fallback of line 112 never replaces an extracted
    value. *)
Theorem extracted_values_are_quoted_literals (text v : string) :
  In v (map strip (matchAll text)) ->
  (exists before after, occurs text before v after)
  /\ forall fallback, or_string (Some v) fallback = v.
Proof.
  intros Hin. apply in_map_iff in Hin. destruct Hin as (x & <- & Hx).
  unfold matchAll in Hx. apply in_map_iff in Hx.
  destruct Hx as (m & <- & Hm).
  destruct (scan_matches _ _ _ Hm) as (a & lit & b & Hocc & ->).
  apply occurs_of_chars in Hocc.
  rewrite string_of_quoted, strip_quoted.
  split; [eauto |].
  intros fallback. destruct Hocc as [_ [Hne _]]. unfold or_string.
  apply String.eqb_neq in Hne. now rewrite Hne.
Qed.

Lemma extracted_values_are_quoted_literals_witness :
  (exists before after,
     occurs Examples.active_inactive before "Inactive" after)
  /\ forall fallback, or_string (Some "Inactive") fallback = "Inactive".
Proof.
  apply (extracted_values_are_quoted_literals Examples.active_inactive
           "Inactive").
  right. now left.
Defined.

End PatternInvariants.

(** ** The handler *)

Lemma input_step_sets fuel defs acc (a : inputData) acc' :
  match in_variable a with
  | None => Throw undefined_typeRef
  | Some v =>
      components <- findItemDefinition fuel (dmn_itemDefinition defs)
                      (var_typeRef v) ;;
      Ok (set acc (key (in_name a))
            {| e_typeRef := var_typeRef v;
               e_components := components;
               e_namespace := in_id a |})
  end = Ok acc' ->
  exists e, acc' = set acc (key (in_name a)) e.
Proof.
  intros H. destruct (in_variable a); [| discriminate].
  apply bind_Ok in H. destruct H as (cs & _ & H). inversion H. eauto.
Qed.

(** X10: a document without inputs gives the empty mapping, with any fuel and
    whatever its catalog is: absent, or even cyclic. *)
Theorem no_inputs_empty_schema
  (fuel : nat) (parsed : document) (defs : definitions) :
  dmn_definitions parsed = Some defs ->
  or_empty (dmn_inputData defs) = [] ->
  handleFileUpload fuel parsed = Ok (VObj []).
Proof.
  intros Hdefs Hinputs. unfold handleFileUpload, inputDataMap.
  now rewrite Hdefs, Hinputs.
Qed.

Lemma no_inputs_empty_schema_witness :
  handleFileUpload 0 (Examples.doc None (Some [Examples.node]))
  = Ok (VObj []).
Proof.
  exact (no_inputs_empty_schema 0 (Examples.doc None (Some [Examples.node]))
           {| dmn_inputData := None;
              dmn_itemDefinition := Some [Examples.node] |}
           eq_refl eq_refl).
Defined.

(** X11: one input without a dmn:variable element is enough for the handler
    to return no schema at all, wherever the input stands: there is no
    partial output. *)
Theorem input_without_variable_fails
  (fuel : nat) (parsed : document) (defs : definitions)
  (input : inputData) (schema : value) :
  dmn_definitions parsed = Some defs ->
  In input (or_empty (dmn_inputData defs)) ->
  in_variable input = None ->
  handleFileUpload fuel parsed <> Ok schema.
Proof.
  intros Hdefs Hin Hvar Hrun. unfold handleFileUpload in Hrun.
  rewrite Hdefs in Hrun. apply bind_Ok in Hrun.
  destruct Hrun as (m & Hmap & _). unfold inputDataMap in Hmap.
  apply in_split in Hin. destruct Hin as (pre & post & Hinputs).
  rewrite Hinputs in Hmap.
  destruct (reduceM_split _ _ _ _ _ _ Hmap) as (acc & acc' & _ & Hstep & _).
  now rewrite Hvar in Hstep.
Qed.

Lemma input_without_variable_fails_witness :
  handleFileUpload 5 MoreExamples.no_variable_doc
  <> Ok (VObj [("Applicant",
                VObj [("name", VStr "example_string"); ("age", VNum 0)])]).
Proof.
  apply (input_without_variable_fails 5 MoreExamples.no_variable_doc
           {| dmn_inputData :=
                Some [Examples.input "Applicant" (Some "Person");
                      {| in_name := Some "Broken"; in_id := None;
                         in_variable := None |}];
              dmn_itemDefinition :=
                Some [Examples.person; Examples.number] |}
           {| in_name := Some "Broken"; in_id := None;
              in_variable := None |});
    [reflexivity | right; now left | reflexivity].
Defined.

(** X12: when no input of the document is named __proto__ (a name that
    assignment does not turn into a property), the keys of a returned schema
    are exactly the names of the inputs of the document (the name undefined
    for an input without one), each once. *)
Theorem schema_keys_are_input_names
  (fuel : nat) (parsed : document) (defs : definitions) (schema : value) :
  dmn_definitions parsed = Some defs ->
  (forall i, In i (or_empty (dmn_inputData defs)) ->
     key (in_name i) <> "__proto__") ->
  handleFileUpload fuel parsed = Ok schema ->
  exists props,
    schema = VObj props
    /\ NoDup (keys props)
    /\ forall k,
         In k (keys props)
         <-> In k (map (fun i => key (in_name i))
                     (or_empty (dmn_inputData defs))).
Proof.
  intros Hdefs _ Hrun. unfold handleFileUpload in Hrun.
  rewrite Hdefs in Hrun.
  apply bind_Ok in Hrun. destruct Hrun as (m & Hmap & Hrun).
  apply bind_Ok in Hrun. destruct Hrun as (entries & Hentries & Hrun).
  inversion Hrun; subst schema. unfold inputDataMap in Hmap.
  pose proof (reduceM_NoDup _ _ (input_step_sets fuel defs)
                _ _ _ Hmap (NoDup_nil _)) as Hnd.
  destruct (mapM_entries
              (fun e => generateExampleValue fuel (e_components e)
                          (dmn_itemDefinition defs)) _ _ Hentries)
    as [Hkeys _].
  exists (fromEntries entries). split; [reflexivity |].
  rewrite fromEntries_NoDup by now rewrite Hkeys.
  rewrite Hkeys. split; [exact Hnd |].
  intros k.
  rewrite (reduceM_keys _ _ (input_step_sets fuel defs) _ _ _ Hmap k).
  simpl. intuition.
Qed.

Lemma schema_keys_are_input_names_witness :
  exists props,
    VObj [("Applicant",
           VObj [("name", VStr "example_string"); ("age", VNum 0)]);
          ("Other", VNull)] = VObj props
    /\ NoDup (keys props)
    /\ forall k,
         In k (keys props)
         <-> In k (map (fun i => key (in_name i))
                     [Examples.input "Applicant" (Some "Number");
                      Examples.input "Other" (Some "Currency");
                      Examples.input "Applicant" (Some "Person")]).
Proof.
  apply (schema_keys_are_input_names 2 MoreExamples.twice_doc
           {| dmn_inputData :=
                Some [Examples.input "Applicant" (Some "Number");
                      Examples.input "Other" (Some "Currency");
                      Examples.input "Applicant" (Some "Person")];
              dmn_itemDefinition :=
                Some [Examples.person; Examples.number] |}
           (VObj [("Applicant",
                   VObj [("name", VStr "example_string"); ("age", VNum 0)]);
                  ("Other", VNull)])
           eq_refl); [| reflexivity].
  intros i [<- | [<- | [<- | []]]]; discriminate.
Defined.

(** X13: when several inputs share a name the last one wins: the entry of
    the name in a returned schema is the synthesized example of what
    resolution returns for the typeRef of the last input of that name. *)
Theorem last_input_wins
  (fuel : nat) (parsed : document) (defs : definitions)
  (pre post : list inputData) (input : inputData) (schema : value) :
  dmn_definitions parsed = Some defs ->
  or_empty (dmn_inputData defs) = (pre ++ input :: post)%list ->
  (forall later, In later post ->
     key (in_name later) <> key (in_name input)) ->
  handleFileUpload fuel parsed = Ok schema ->
  exists v components example props,
    in_variable input = Some v
    /\ findItemDefinition fuel (dmn_itemDefinition defs) (var_typeRef v)
       = Ok components
    /\ generateExampleValue fuel components (dmn_itemDefinition defs)
       = Ok example
    /\ schema = VObj props
    /\ get props (key (in_name input)) = Some example.
Proof.
  intros Hdefs Hinputs Hlast Hrun.
  exact (handleFileUpload_entry fuel parsed defs pre input post schema
           Hdefs Hinputs Hlast Hrun).
Qed.

Lemma last_input_wins_witness :
  exists v components example props,
    in_variable (Examples.input "Applicant" (Some "Person")) = Some v
    /\ findItemDefinition 2 (Some [Examples.person; Examples.number])
         (var_typeRef v)
       = Ok components
    /\ generateExampleValue 2 components
         (Some [Examples.person; Examples.number])
       = Ok example
    /\ VObj [("Applicant",
              VObj [("name", VStr "example_string"); ("age", VNum 0)]);
             ("Other", VNull)] = VObj props
    /\ get props "Applicant" = Some example.
Proof.
  apply (last_input_wins 2 MoreExamples.twice_doc
           {| dmn_inputData :=
                Some [Examples.input "Applicant" (Some "Number");
                      Examples.input "Other" (Some "Currency");
                      Examples.input "Applicant" (Some "Person")];
              dmn_itemDefinition :=
                Some [Examples.person; Examples.number] |}
           [Examples.input "Applicant" (Some "Number");
            Examples.input "Other" (Some "Currency")]
           []
           (Examples.input "Applicant" (Some "Person"))
           (VObj [("Applicant",
                   VObj [("name", VStr "example_string"); ("age", VNum 0)]);
                  ("Other", VNull)])
           eq_refl eq_refl);
    [intros later [] | reflexivity].
Defined.

Lemma resolution_shape fuel catalog typeRef r :
  findItemDefinition fuel (Some catalog) typeRef = Ok r ->
  match find_def catalog typeRef with
  | None => r = None
  | Some d =>
      exists comps,
        r = Some comps
        /\ map c_name comps = map ic_name (or_empty (def_itemComponent d))
  end.
Proof.
  destruct fuel as [| fuel]; [discriminate |].
  rewrite findItemDefinition_S.
  destruct (find_def catalog typeRef) as [d |];
    [| intros H; now inversion H].
  intros Hrun. apply bind_Ok in Hrun. destruct Hrun as (cs & Hcs & Hrun).
  inversion Hrun; subst r. exists cs. split; [reflexivity |].
  apply (mapM_map_eq _ c_name ic_name _ _) in Hcs; [exact Hcs |].
  intros a b Hb. apply bind_Ok in Hb. destruct Hb as (sub & _ & Hb).
  now inversion Hb.
Qed.

Lemma synthesis_shape fuel components defs v :
  generateExampleValue fuel components defs = Ok v ->
  match components with
  | None => v = VNull
  | Some comps =>
      exists props,
        v = VObj props
        /\ forall k,
             In k (keys props) <-> In k (map (fun c => key (c_name c)) comps)
  end.
Proof.
  rewrite generateExampleValue_default.
  destruct fuel as [| fuel]; [discriminate |].
  destruct components as [comps |]; [| intros H; now inversion H].
  rewrite generateExampleValue_fields. intros Hrun.
  apply bind_Ok in Hrun. destruct Hrun as (props & Hfold & Hrun).
  inversion Hrun; subst v. exists props. split; [reflexivity |].
  intros k.
  rewrite (reduceM_keys _ _ (field_step_sets fuel (or_empty defs))
             _ _ _ Hfold k).
  simpl. intuition.
Qed.

(** X14: when no input and no component of the definition in question is
    named __proto__ (a name that assignment does not turn into a property),
    in a returned schema the entry of an input (that no later input shadows)
    is null exactly when the catalog has no definition named by its typeRef;
    otherwise it is a mapping whose keys are the names of the components of
    the first such definition: never a scalar, also when that definition has
    no components. *)
Theorem input_entry_shape
  (fuel : nat) (parsed : document) (defs : definitions)
  (catalog : list itemDefinition) (pre post : list inputData)
  (input : inputData) (v : variable) (schema : value) :
  dmn_definitions parsed = Some defs ->
  dmn_itemDefinition defs = Some catalog ->
  or_empty (dmn_inputData defs) = (pre ++ input :: post)%list ->
  (forall later, In later post ->
     key (in_name later) <> key (in_name input)) ->
  in_variable input = Some v ->
  (forall i, In i (or_empty (dmn_inputData defs)) ->
     key (in_name i) <> "__proto__") ->
  (forall d c, find_def catalog (var_typeRef v) = Some d ->
     In c (or_empty (def_itemComponent d)) ->
     key (ic_name c) <> "__proto__") ->
  handleFileUpload fuel parsed = Ok schema ->
  exists props example,
    schema = VObj props
    /\ get props (key (in_name input)) = Some example
    /\ match find_def catalog (var_typeRef v) with
       | None => example = VNull
       | Some d =>
           exists fields,
             example = VObj fields
             /\ forall k,
                  In k (keys fields)
                  <-> In k (map (fun c => key (ic_name c))
                              (or_empty (def_itemComponent d)))
       end.
Proof.
  intros Hdefs Hcatalog Hinputs Hlast Hvar _ _ Hrun.
  destruct (handleFileUpload_entry fuel parsed defs pre input post schema
              Hdefs Hinputs Hlast Hrun)
    as (v' & components & example & props & Hv & Hfind & Hgen & -> & Hget).
  rewrite Hvar in Hv. inversion Hv; subst v'. rewrite Hcatalog in Hfind, Hgen.
  exists props, example. split; [reflexivity |]. split; [exact Hget |].
  pose proof (resolution_shape fuel catalog (var_typeRef v) components Hfind)
    as Hshape.
  pose proof (synthesis_shape fuel components (Some catalog) example Hgen)
    as Hsyn.
  destruct (find_def catalog (var_typeRef v)) as [d |].
  - destruct Hshape as (comps & -> & Hnames).
    destruct Hsyn as (fields & -> & Hkeys). exists fields.
    split; [reflexivity |]. intros k. rewrite Hkeys.
    rewrite <- (map_map c_name key), Hnames, map_map. reflexivity.
  - subst components. exact Hsyn.
Qed.

Lemma input_entry_shape_witness :
  exists props example,
    VObj [("State", VObj [])] = VObj props
    /\ get props "State" = Some example
    /\ match find_def [Examples.status Examples.active_inactive]
               (Some "Status") with
       | None => example = VNull
       | Some d =>
           exists fields,
             example = VObj fields
             /\ forall k,
                  In k (keys fields)
                  <-> In k (map (fun c => key (ic_name c))
                              (or_empty (def_itemComponent d)))
       end.
Proof.
  apply (input_entry_shape 1 Examples.status_input_doc
           {| dmn_inputData :=
                Some [Examples.input "State" (Some "Status")];
              dmn_itemDefinition :=
                Some [Examples.status Examples.active_inactive] |}
           [Examples.status Examples.active_inactive] [] []
           (Examples.input "State" (Some "Status"))
           {| var_typeRef := Some "Status" |}
           (VObj [("State", VObj [])])
           eq_refl eq_refl eq_refl);
    [intros later [] | reflexivity | | | reflexivity].
  - intros i [<- | []]. discriminate.
  - intros d c Hd Hc. inversion Hd; subst d. destruct Hc.
Defined.

(** An exception that building inputDataMap throws is one of two TypeErrors:
    of reading _typeRef of undefined, and then some input has no
    dmn:variable; or of reading find of undefined, and then the document has
    no dmn:itemDefinition while some input has a dmn:variable. *)
Lemma inputDataMap_errors
  (fuel : nat) (defs : definitions) (e : error) :
  inputDataMap fuel defs = Throw e ->
  (e = undefined_typeRef
   /\ exists input,
        In input (or_empty (dmn_inputData defs))
        /\ in_variable input = None)
  \/ (e = undefined_find
      /\ dmn_itemDefinition defs = None
      /\ exists input v,
           In input (or_empty (dmn_inputData defs))
           /\ in_variable input = Some v).
Proof.
  unfold inputDataMap. intros Hrun. apply reduceM_Throw in Hrun.
  destruct Hrun as (acc & input & Hin & Hstep).
  destruct (in_variable input) as [v |] eqn:Hv.
  - right.
    destruct (findItemDefinition fuel (dmn_itemDefinition defs)
                (var_typeRef v)) as [cs | e1 |] eqn:Hfind;
      simpl in Hstep; try discriminate.
    inversion Hstep; subst e1.
    destruct (dmn_itemDefinition defs) as [catalog |].
    + now destruct (findItemDefinition_not_Throw fuel catalog
                      (var_typeRef v) e).
    + destruct fuel as [| fuel]; [discriminate |].
      simpl in Hfind. inversion Hfind. eauto 6.
  - left. inversion Hstep. eauto.
Qed.

(** X15: on a document whose catalog is absent or acyclic, building
    inputDataMap ends, from some amount of fuel on, in one of three ways: it
    returns the map; or it throws the TypeError of reading _typeRef of
    undefined, and then some input has no dmn:variable; or it throws the
    TypeError of reading find of undefined, and then the document has no
    dmn:itemDefinition while some input has a dmn:variable. *)
Theorem inputDataMap_outcomes
  (defs : definitions) (rank : option string -> nat) :
  (forall catalog,
     dmn_itemDefinition defs = Some catalog -> acyclic catalog rank) ->
  exists enough, forall fuel, enough <= fuel ->
    (exists m, inputDataMap fuel defs = Ok m)
    \/ (inputDataMap fuel defs = Throw undefined_typeRef
        /\ exists input,
             In input (or_empty (dmn_inputData defs))
             /\ in_variable input = None)
    \/ (inputDataMap fuel defs = Throw undefined_find
        /\ dmn_itemDefinition defs = None
        /\ exists input v,
             In input (or_empty (dmn_inputData defs))
             /\ in_variable input = Some v).
Proof.
  intros Hacyclic.
  destruct (acyclic_extraction_finishes {| dmn_definitions := Some defs |}
              rank) as [enough Hdone].
  { intros defs' catalog Hdefs Hcatalog. inversion Hdefs; subst defs'.
    now apply Hacyclic. }
  assert (Hmap : inputDataMap enough defs <> OutOfFuel).
  { intros Hout. apply Hdone. unfold handleFileUpload.
    cbn [dmn_definitions]. now rewrite Hout. }
  exists enough. intros fuel Hle.
  pose proof (refines_done _ _ (inputDataMap_mono enough fuel defs Hle) Hmap)
    as Hsame.
  rewrite Hsame.
  destruct (inputDataMap enough defs) as [m | e |] eqn:Hrun.
  - left. now exists m.
  - right.
    destruct (inputDataMap_errors enough defs e Hrun)
      as [[-> Hmiss] | (-> & Hnone & Hsome)].
    + left. now split.
    + right. now split.
  - contradiction.
Qed.

Lemma inputDataMap_outcomes_witness :
  exists enough, forall fuel, enough <= fuel ->
    (exists m,
       inputDataMap fuel
         {| dmn_inputData := Some [Examples.input "Age" (Some "number")];
            dmn_itemDefinition := None |} = Ok m)
    \/ (inputDataMap fuel
          {| dmn_inputData := Some [Examples.input "Age" (Some "number")];
             dmn_itemDefinition := None |} = Throw undefined_typeRef
        /\ exists input,
             In input [Examples.input "Age" (Some "number")]
             /\ in_variable input = None)
    \/ (inputDataMap fuel
          {| dmn_inputData := Some [Examples.input "Age" (Some "number")];
             dmn_itemDefinition := None |} = Throw undefined_find
        /\ @None (list itemDefinition) = None
        /\ exists input v,
             In input [Examples.input "Age" (Some "number")]
             /\ in_variable input = Some v).
Proof.
  apply (inputDataMap_outcomes
           {| dmn_inputData := Some [Examples.input "Age" (Some "number")];
              dmn_itemDefinition := None |}
           (fun _ => 0)).
  intros catalog Hcatalog. discriminate Hcatalog.
Defined.

(** ** Definitions of one name *)

Lemma mapM_ext {A B} (f g : A -> result B) (l : list A) :
  (forall a, f a = g a) -> mapM f l = mapM g l.
Proof.
  intros Hfg. induction l as [| a l IH]; simpl; [reflexivity |].
  now rewrite Hfg, IH.
Qed.

Section SameLookups.
Variables catalog1 catalog2 : list itemDefinition.
Hypothesis same_lookups :
  forall typeRef, find_def catalog1 typeRef = find_def catalog2 typeRef.

Lemma findItemDefinition_same_lookups fuel typeRef :
  findItemDefinition fuel (Some catalog1) typeRef
  = findItemDefinition fuel (Some catalog2) typeRef.
Proof.
  revert typeRef. induction fuel as [| fuel IH]; intros typeRef;
    [reflexivity |].
  rewrite !findItemDefinition_S, same_lookups.
  destruct (find_def catalog2 typeRef) as [d |]; [| reflexivity].
  f_equal. apply mapM_ext. intros c. now rewrite IH.
Qed.

Lemma generateExampleValue_same_lookups fuel components :
  generateExampleValue fuel components (Some catalog1)
  = generateExampleValue fuel components (Some catalog2).
Proof.
  revert components. induction fuel as [| fuel IH]; intros components;
    [reflexivity |].
  destruct components as [comps |]; [| reflexivity].
  rewrite !generateExampleValue_fields. f_equal.
  apply reduceM_ext. intros acc c _. f_equal.
  unfold field_example. rewrite same_lookups. cbv zeta.
  destruct (if truthy (c_typeRef c)
            then find_def catalog2 (c_typeRef c) else None) as [d |].
  - destruct (negb (has_items d) && av_truthy (def_allowedValues d));
      [reflexivity |].
    destruct (has_items d); [| reflexivity].
    f_equal. apply reduceM_ext. intros nestedAcc comp _.
    rewrite findItemDefinition_same_lookups.
    destruct (if truthy (ic_typeRef comp)
              then findItemDefinition fuel (Some catalog2) (ic_typeRef comp)
              else Ok None) as [sub | e |]; [| reflexivity | reflexivity].
    cbn [bind]. now rewrite IH.
  - destruct (truthy (c_typeRef c)); [apply IH | reflexivity].
Qed.

End SameLookups.

Lemma find_def_shadowed catalog extra typeRef :
  (forall d, In d extra ->
     exists d', In d' catalog /\ def_name d' = def_name d) ->
  find_def (catalog ++ extra) typeRef = find_def catalog typeRef.
Proof.
  intros Hshadow. unfold find_def.
  destruct (find (fun d => strict_eq (def_name d) typeRef) catalog)
    as [d |] eqn:Hfind.
  - revert Hfind. clear Hshadow.
    induction catalog as [| d0 catalog IH]; simpl; [discriminate |].
    destruct (strict_eq (def_name d0) typeRef); [trivial | exact IH].
  - assert (Hextra : find (fun d => strict_eq (def_name d) typeRef) extra
                     = None).
    { destruct (find (fun d => strict_eq (def_name d) typeRef) extra)
        as [d |] eqn:Hd; [| reflexivity].
      apply find_some in Hd. destruct Hd as [Hin Hname].
      destruct (Hshadow d Hin) as (d' & Hin' & Heq).
      pose proof (find_none _ _ Hfind d' Hin') as Hd'. cbv beta in Hd'.
      rewrite Heq, Hname in Hd'. discriminate. }
    clear Hshadow. revert Hfind.
    induction catalog as [| d0 catalog IH]; simpl; [now intros _ |].
    destruct (strict_eq (def_name d0) typeRef); [discriminate | exact IH].
Qed.

(** X16: definitions whose names are already defined earlier in the catalog
    are never used: appending them changes nothing in what the handler
    returns (the first definition of a name wins). *)
Theorem shadowed_definitions_are_ignored
  (fuel : nat) (inputs : option (list inputData))
  (catalog extra : list itemDefinition) :
  (forall d, In d extra ->
     exists d', In d' catalog /\ def_name d' = def_name d) ->
  handleFileUpload fuel
    {| dmn_definitions :=
         Some {| dmn_inputData := inputs;
                 dmn_itemDefinition := Some (catalog ++ extra)%list |} |}
  = handleFileUpload fuel
      {| dmn_definitions :=
           Some {| dmn_inputData := inputs;
                   dmn_itemDefinition := Some catalog |} |}.
Proof.
  intros Hshadow.
  pose proof (fun t => find_def_shadowed catalog extra t Hshadow) as Hsame.
  unfold handleFileUpload, inputDataMap.
  cbn [dmn_definitions dmn_inputData dmn_itemDefinition].
  assert (Hmap :
    reduceM (fun acc input =>
      match in_variable input with
      | None => Throw undefined_typeRef
      | Some v =>
          components <- findItemDefinition fuel (Some (catalog ++ extra)%list)
                          (var_typeRef v) ;;
          Ok (set acc (key (in_name input))
                {| e_typeRef := var_typeRef v;
                   e_components := components;
                   e_namespace := in_id input |})
      end) (or_empty inputs) []
    = reduceM (fun acc input =>
        match in_variable input with
        | None => Throw undefined_typeRef
        | Some v =>
            components <- findItemDefinition fuel (Some catalog)
                            (var_typeRef v) ;;
            Ok (set acc (key (in_name input))
                  {| e_typeRef := var_typeRef v;
                     e_components := components;
                     e_namespace := in_id input |})
        end) (or_empty inputs) []).
  { apply reduceM_ext. intros acc input _.
    destruct (in_variable input) as [v |]; [| reflexivity].
    now rewrite (findItemDefinition_same_lookups _ _ Hsame). }
  rewrite Hmap.
  match goal with
  | |- bind ?m _ = bind ?m _ => destruct m as [im | e |]
  end; try reflexivity.
  cbn [bind]. f_equal. apply mapM_ext. intros kd.
  now rewrite (generateExampleValue_same_lookups _ _ Hsame).
Qed.

Lemma shadowed_definitions_are_ignored_witness :
  handleFileUpload 2
    (Examples.doc (Some [Examples.input "Applicant" (Some "Person")])
       (Some [Examples.person; Examples.number; MoreExamples.other_person]))
  = handleFileUpload 2 Examples.applicant_doc.
Proof.
  apply (shadowed_definitions_are_ignored 2
           (Some [Examples.input "Applicant" (Some "Person")])
           [Examples.person; Examples.number] [MoreExamples.other_person]).
  intros d [<- | []]. exists Examples.person. split; [now left | reflexivity].
Defined.

(** X17: on a document whose catalog is acyclic the handler finishes: from
    some amount of fuel on it gives one and the same outcome, a schema or an
    exception. *)
Theorem acyclic_document_finishes
  (parsed : document) (rank : option string -> nat) :
  (forall defs catalog,
     dmn_definitions parsed = Some defs ->
     dmn_itemDefinition defs = Some catalog ->
     acyclic catalog rank) ->
  exists enough,
    handleFileUpload enough parsed <> OutOfFuel
    /\ forall fuel, enough <= fuel ->
         handleFileUpload fuel parsed = handleFileUpload enough parsed.
Proof.
  intros Hacyclic.
  destruct (acyclic_extraction_finishes parsed rank Hacyclic)
    as [enough Hdone].
  exists enough. split; [exact Hdone |]. intros fuel Hle.
  now apply (handleFileUpload_more_fuel enough).
Qed.

Lemma acyclic_document_finishes_witness :
  exists enough,
    handleFileUpload enough Examples.applicant_doc <> OutOfFuel
    /\ forall fuel, enough <= fuel ->
         handleFileUpload fuel Examples.applicant_doc
         = handleFileUpload enough Examples.applicant_doc.
Proof.
  apply (acyclic_document_finishes Examples.applicant_doc
           (fun t => if strict_eq t (Some "Person") then 1 else 0)).
  intros defs catalog Hdefs Hcatalog.
  inversion Hdefs; subst defs. inversion Hcatalog; subst catalog.
  intros t d c Hfind Hin Htruthy.
  unfold find_def in Hfind. cbn [find Examples.person Examples.number
    Examples.composite Examples.primitive def_name] in Hfind.
  destruct (strict_eq (Some "Person") t) eqn:Hp.
  - inversion Hfind; subst d. cbn in Hin.
    destruct Hin as [<- | [<- | []]]; [discriminate |].
    apply strict_eq_true in Hp. subst t. simpl. lia.
  - destruct (strict_eq (Some "Number") t); [| discriminate].
    inversion Hfind; subst d. cbn in Hin. contradiction.
Defined.

(** ** The upload handler *)

Lemma endsWith_cons c s suffix :
  endsWith (String c s) suffix
  = (String c s =? suffix) || endsWith s suffix.
Proof. reflexivity. Qed.

Lemma endsWith_iff s suffix :
  endsWith s suffix = true <-> exists prefix, s = prefix ++ suffix.
Proof.
  induction s as [| c s IH].
  - change (endsWith "" suffix) with (("" =? suffix) || false).
    rewrite orb_false_r, String.eqb_eq. split.
    + intros <-. now exists "".
    + intros [prefix H]. destruct prefix; [exact H | discriminate].
  - rewrite endsWith_cons, orb_true_iff, String.eqb_eq, IH. split.
    + intros [<- | [prefix ->]]; [now exists "" |].
      now exists (String c prefix).
    + intros [[| c' prefix] H]; [now left |].
      right. simpl in H. inversion H. now exists prefix.
Qed.

(** X18: the handler reads the first selected file exactly when its name is
    some text followed by .dmn in lowercase; any other first file is
    rejected before the parser sees it: the only effect is the validation
    error Invalid file type, whatever the file holds, and the schema and the
    modal stay as they were. *)
Theorem file_gate
  (parse : string -> error + document) (fuel : nat) (st : AppState)
  (f : file) (rest : list file) :
  ((exists prefix, file_name f = prefix ++ ".dmn") ->
   handleFileUpload_event parse fuel st (f :: rest)
   = reader_onload parse fuel st (file_text f))
  /\ ((forall prefix, file_name f <> prefix ++ ".dmn") ->
      handleFileUpload_event parse fuel st (f :: rest)
      = Ok {| jsonSchema := jsonSchema st;
              modalOpen := modalOpen st;
              validationErrors := [invalid_file_type] |}).
Proof.
  unfold handleFileUpload_event. split.
  - intros Hname. apply endsWith_iff in Hname. now rewrite Hname.
  - intros Hname.
    destruct (endsWith (file_name f) ".dmn") eqn:Hends; [| reflexivity].
    apply endsWith_iff in Hends. destruct Hends as [prefix Hp].
    now destruct (Hname prefix).
Qed.

Lemma file_gate_witness :
  handleFileUpload_event MoreExamples.parse 2 Examples.initial
    [MoreExamples.dmn_file; MoreExamples.xml_file]
  = reader_onload MoreExamples.parse 2 Examples.initial "applicant"
  /\ handleFileUpload_event MoreExamples.parse 2 Examples.initial
       [{| file_name := "loan.DMN"; file_text := "applicant" |}]
     = Ok {| jsonSchema := None;
             modalOpen := false;
             validationErrors := [invalid_file_type] |}.
Proof.
  split.
  - apply (proj1 (file_gate MoreExamples.parse 2 Examples.initial
                    MoreExamples.dmn_file [MoreExamples.xml_file])).
    now exists "loan".
  - apply (proj2 (file_gate MoreExamples.parse 2 Examples.initial
                    {| file_name := "loan.DMN"; file_text := "applicant" |}
                    [])).
    intros prefix Hname.
    assert (Hends : endsWith "loan.DMN" ".dmn" = true).
    { apply endsWith_iff. now exists prefix. }
    discriminate Hends.
Defined.

(** X19: whatever is uploaded, the handler ends in one of three ways: no
    file was selected and the state is unchanged; or exactly one validation
    error replaces the earlier ones while the schema and the modal stay as
    they were; or the parser decoded the file, the extraction returned a
    schema, and that schema is stored, the modal opened and the errors
    cleared. The modal never opens on a failure. *)
Theorem upload_outcomes
  (parse : string -> error + document) (fuel : nat) (st after : AppState)
  (files : list file) :
  handleFileUpload_event parse fuel st files = Ok after ->
  (files = [] /\ after = st)
  \/ (exists e,
        files <> []
        /\ after = {| jsonSchema := jsonSchema st;
                      modalOpen := modalOpen st;
                      validationErrors := [e] |})
  \/ (exists f rest parsed schema,
        files = f :: rest
        /\ parse (file_text f) = inr parsed
        /\ handleFileUpload fuel parsed = Ok schema
        /\ after = {| jsonSchema := Some schema;
                      modalOpen := true;
                      validationErrors := [] |}).
Proof.
  unfold handleFileUpload_event. intros Hrun.
  destruct files as [| f rest]; [inversion Hrun; now left |].
  right. destruct (negb (endsWith (file_name f) ".dmn")).
  - inversion Hrun. left. exists invalid_file_type.
    split; [discriminate | reflexivity].
  - unfold reader_onload in Hrun.
    destruct (parse (file_text f)) as [e | parsed] eqn:Hparse.
    + inversion Hrun. left. exists ("Processing error", message e).
      split; [discriminate | reflexivity].
    + unfold onload in Hrun.
      destruct (handleFileUpload fuel parsed) as [schema | e |] eqn:Hext;
        inversion Hrun.
      * right. now exists f, rest, parsed, schema.
      * left. exists ("Processing error", message e).
        split; [discriminate | reflexivity].
Qed.

Lemma upload_outcomes_witness :
  ([MoreExamples.dmn_file] = []
   /\ {| jsonSchema :=
           Some (VObj [("Applicant",
                        VObj [("name", VStr "example_string");
                              ("age", VNum 0)])]);
         modalOpen := true;
         validationErrors := [] |} = Examples.initial)
  \/ (exists e,
        [MoreExamples.dmn_file] <> []
        /\ {| jsonSchema :=
                Some (VObj [("Applicant",
                             VObj [("name", VStr "example_string");
                                   ("age", VNum 0)])]);
              modalOpen := true;
              validationErrors := [] |}
           = {| jsonSchema := jsonSchema Examples.initial;
                modalOpen := modalOpen Examples.initial;
                validationErrors := [e] |})
  \/ (exists f rest parsed schema,
        [MoreExamples.dmn_file] = f :: rest
        /\ MoreExamples.parse (file_text f) = inr parsed
        /\ handleFileUpload 2 parsed = Ok schema
        /\ {| jsonSchema :=
                Some (VObj [("Applicant",
                             VObj [("name", VStr "example_string");
                                   ("age", VNum 0)])]);
              modalOpen := true;
              validationErrors := [] |}
           = {| jsonSchema := Some schema;
                modalOpen := true;
                validationErrors := [] |}).
Proof.
  exact (upload_outcomes MoreExamples.parse 2 Examples.initial
           {| jsonSchema :=
                Some (VObj [("Applicant",
                             VObj [("name", VStr "example_string");
                                   ("age", VNum 0)])]);
              modalOpen := true;
              validationErrors := [] |}
           [MoreExamples.dmn_file] eq_refl).
Defined.

(** X20: uploading the same selection again changes nothing: the state the
    handler ends in is a fixed point of the handler on the same files with
    the same fuel. *)
Theorem upload_is_idempotent
  (parse : string -> error + document) (fuel : nat) (st after : AppState)
  (files : list file) :
  handleFileUpload_event parse fuel st files = Ok after ->
  handleFileUpload_event parse fuel after files = Ok after.
Proof.
  unfold handleFileUpload_event. destruct files as [| f rest]; [trivial |].
  destruct (negb (endsWith (file_name f) ".dmn")).
  - intros H. inversion H. reflexivity.
  - unfold reader_onload. destruct (parse (file_text f)) as [e | parsed].
    + intros H. inversion H. reflexivity.
    + unfold onload.
      destruct (handleFileUpload fuel parsed) as [schema | e |];
        intros H; inversion H; reflexivity.
Qed.

Lemma upload_is_idempotent_witness :
  handleFileUpload_event MoreExamples.parse 2
    {| jsonSchema := None;
       modalOpen := false;
       validationErrors :=
         [("Processing error", "Invalid DMN file structure")] |}
    [{| file_name := "empty.dmn"; file_text := "empty" |}]
  = Ok {| jsonSchema := None;
          modalOpen := false;
          validationErrors :=
            [("Processing error", "Invalid DMN file structure")] |}.
Proof.
  exact (upload_is_idempotent MoreExamples.parse 2 Examples.initial
           {| jsonSchema := None;
              modalOpen := false;
              validationErrors :=
                [("Processing error", "Invalid DMN file structure")] |}
           [{| file_name := "empty.dmn"; file_text := "empty" |}]
           eq_refl).
Defined.

(** ** Fields of a composite type *)




(** X22: a field with a typeRef that names no definition of the catalog gets
    null, also when the typeRef is one of the words number, boolean or
    string: for such a field line 130 synthesizes the components that
    resolution left null, and the classification of lines 131-133 is reached
    only by fields without a usable typeRef. *)
Theorem undeclared_field_type_gives_null
  (n : nat) (catalog : list itemDefinition) (c : component) :
  settled catalog c ->
  truthy (c_typeRef c) = true ->
  find_def catalog (c_typeRef c) = None ->
  generateExampleValue (S (S n)) (Some [c]) (Some catalog)
  = Ok (VObj [(key (c_name c), VNull)]).
Proof.
  intros Hsettled Htruthy Hmiss. rewrite generateExampleValue_single.
  unfold field_example. rewrite Htruthy, Hmiss, (Hsettled Htruthy Hmiss).
  reflexivity.
Qed.

Lemma undeclared_field_type_gives_null_witness :
  generateExampleValue 2 (Some [Component (Some "age") (Some "number") None])
    (Some [Examples.person])
  = Ok (VObj [("age", VNull)]).
Proof.
  apply (undeclared_field_type_gives_null 0 [Examples.person]
           (Component (Some "age") (Some "number") None));
    [intros _ _ | | ]; reflexivity.
Defined.
